(** * ez_tweet: a shallow embedding of [cli.py]

    The program is a small Tk front end that posts a text through the X
    API.  This development embeds its functions as Rocq definitions and
    proves the behaviour stated for them.

    Conventions of the embedding.
    - A Python [str] is a list of Unicode code points ([list N]).
    - A [Dict[str, str]] is a [gmap (list N) (list N)].
    - A function that may raise returns a [result]; the exception carries
      the message the source builds for it.
    - Logging, the message boxes, the outgoing API requests, the started
      threads and the Tk [after] queue are fields of an explicit [world]
      that is threaded through the effectful functions.
    - What the source delegates to libraries outside the repository (the
      JSON decoder, the tweepy session) is taken as a function argument;
      [LibraryError] stands for whatever such a library raises.
    - The life of the window is a [Session]: a state and the events that
      change it (edits, the button, a worker that runs, a queued callback
      that the event loop runs). *)

From Stdlib Require Import ZArith NArith Ascii String DecimalString.
From stdpp Require Import gmap list fin_maps strings.

Local Open Scope N_scope.

(** ** Python strings *)

Abbreviation str := (list N).

(** A string literal of the source, as code points. *)
Definition lit (s : string) : str :=
  N_of_ascii <$> list_ascii_of_string s.

(** [str(n)] and the [{n}] of an f-string for an [int]. *)
Definition str_of_int (n : Z) : str :=
  lit (NilEmpty.string_of_int (Z.to_int n)).

(** [str.isspace] on one code point, as CPython's [Py_UNICODE_ISSPACE]:
    the ASCII table below 128 and the Unicode white-space property above. *)
Definition isspace (c : N) : bool :=
  ((0x09 <=? c) && (c <=? 0x0D))
  || ((0x1C <=? c) && (c <=? 0x20))
  || (c =? 0x85) || (c =? 0xA0) || (c =? 0x1680)
  || ((0x2000 <=? c) && (c <=? 0x200A))
  || (c =? 0x2028) || (c =? 0x2029) || (c =? 0x202F)
  || (c =? 0x205F) || (c =? 0x3000).

(** [s.lstrip()], [s.rstrip()] and [s.strip()] without argument. *)
Fixpoint lstrip (s : str) : str :=
  match s with
  | [] => []
  | c :: s' => if isspace c then lstrip s' else s
  end.

Definition rstrip (s : str) : str := reverse (lstrip (reverse s)).

Definition strip (s : str) : str := rstrip (lstrip s).

(** [not s] for a string: true on the empty string only. *)
Definition falsy (s : str) : bool :=
  match s with [] => true | _ :: _ => false end.

(** [len(s)] as a Python [int]. *)
Definition len (s : str) : Z := Z.of_nat (length s).

(** What "the text with leading and trailing white space removed" means:
    [t] is [text] without a run of white space at each end, and [t] neither
    starts nor ends with white space.  This follows the words of the
    specification, to be compared with [strip]. *)
Definition whitespace (l : str) : Prop := Forall (λ c, isspace c = true) l.

Definition trimmed_of (text t : str) : Prop :=
  ∃ l r, text = l ++ t ++ r ∧ whitespace l ∧ whitespace r
         ∧ (∀ c, head t = Some c → isspace c = false)
         ∧ (∀ c, last t = Some c → isspace c = false).

(** ** Exceptions and results *)

Inductive exn : Type :=
  | ValueError (msg : str)
  | FileNotFoundError (msg : str)
  | IsADirectoryError (msg : str)
  | KeyError (msg : str)
  | NameError (msg : str)
  | LibraryError (msg : str).

(** [str(exc)] *)
Definition exn_message (e : exn) : str :=
  match e with
  | ValueError m | FileNotFoundError m | IsADirectoryError m
  | KeyError m | NameError m | LibraryError m => m
  end.

Inductive result (A : Type) : Type :=
  | Ok (a : A)
  | Raise (e : exn).
Arguments Ok {A} a.
Arguments Raise {A} e.

Definition succeeds {A} (r : result A) : Prop := ∃ a, r = Ok a.

(** ** [validate_text] *)

Definition validate_text (text : str) (max_length : Z) : result str :=
  let cleaned := strip text in
  if falsy cleaned then
    Raise (ValueError (lit "Message is empty after trimming whitespace"))
  else if (len cleaned >? max_length)%Z then
    Raise (ValueError (lit "Text exceeds maximum length of "
                         ++ str_of_int max_length ++ lit " characters"))
  else Ok cleaned.

(** ** More string operations used by the source *)

(** [s.startswith(prefix)] and [s.endswith(suffix)] *)
Fixpoint startswith (prefix s : str) : bool :=
  match prefix, s with
  | [], _ => true
  | _ :: _, [] => false
  | p :: prefix', c :: s' => (p =? c) && startswith prefix' s'
  end.

Definition endswith (suffix s : str) : bool :=
  startswith (reverse suffix) (reverse s).

(** [sub in s] *)
Fixpoint contains (sub s : str) : bool :=
  startswith sub s
  || match s with
     | [] => false
     | _ :: s' => contains sub s'
     end.

(** [s.split(sep, 1)]: cut at the first occurrence of [sep]; the whole
    string alone when [sep] does not occur. *)
Fixpoint split_1 (sep s : str) : list str :=
  if startswith sep s then [[]; drop (length sep) s]
  else match s with
       | [] => [[]]
       | c :: s' =>
         match split_1 sep s' with
         | head :: rest => (c :: head) :: rest
         | [] => [[c]]
         end
       end.

(** [sep.join(parts)] *)
Fixpoint join (sep : str) (parts : list str) : str :=
  match parts with
  | [] => []
  | [p] => p
  | p :: rest => p ++ sep ++ join sep rest
  end.

(** [s.lower()].  Only the ASCII letters are mapped.  The source applies
    [lower] to a path before testing for the suffix [.json]; no code point
    outside ASCII has a lower-case form that ends in one of the characters
    of that suffix, so the test is decided by this mapping. *)
Definition lower_char (c : N) : N :=
  if (0x41 <=? c) && (c <=? 0x5A) then c + 0x20 else c.

Definition lower (s : str) : str := lower_char <$> s.

(** ** Exceptions, continued: state and exceptions together *)

Global Instance result_ret : MRet result := λ A a, Ok a.
Global Instance result_bind : MBind result := λ A B k r,
  match r with
  | Ok a => k a
  | Raise e => Raise e
  end.

(** A computation over a state [S] that returns or raises; the state
    survives a raise, as the effects of a Python function do. *)
Definition M (S A : Type) : Type := S → result A * S.

Definition ret {S A} (a : A) : M S A := λ s, (Ok a, s).

Definition raise {S A} (e : exn) : M S A := λ s, (Raise e, s).

Definition bind {S A B} (m : M S A) (k : A → M S B) : M S B := λ s,
  match m s with
  | (Ok a, s') => k a s'
  | (Raise e, s') => (Raise e, s')
  end.

Definition lift {S A} (r : result A) : M S A := λ s, (r, s).

Definition modify {S} (f : S → S) : M S unit := λ s, (Ok tt, f s).

(** [try: m except Exception as exc: h exc] *)
Definition try_except {S A} (m : M S A) (h : exn → M S A) : M S A := λ s,
  match m s with
  | (Ok a, s') => (Ok a, s')
  | (Raise e, s') => h e s'
  end.

(** [try: m finally: f] *)
Definition try_finally {S A} (m : M S A) (f : M S unit) : M S A := λ s,
  match m s with
  | (r, s') =>
    match f s' with
    | (Ok _, s'') => (r, s'')
    | (Raise e, s'') => (Raise e, s'')
    end
  end.

Declare Scope py_scope.
Delimit Scope py_scope with py.
Notation "x <- m ;; k" := (bind m (λ x, k))
  (at level 100, m at next level, right associativity) : py_scope.
Notation "m ;;; k" := (bind m (λ _, k))
  (at level 100, right associativity) : py_scope.

(** ** Credentials *)

Definition X_BEARER_TOKEN : str := lit "X_BEARER_TOKEN".
Definition X_CONSUMER_KEY : str := lit "X_CONSUMER_KEY".
Definition X_CONSUMER_SECRET : str := lit "X_CONSUMER_SECRET".
Definition X_ACCESS_TOKEN : str := lit "X_ACCESS_TOKEN".
Definition X_ACCESS_SECRET : str := lit "X_ACCESS_SECRET".

Definition CREDENTIAL_KEYS : list str :=
  [X_BEARER_TOKEN; X_CONSUMER_KEY; X_CONSUMER_SECRET; X_ACCESS_TOKEN;
   X_ACCESS_SECRET].

(** [not mapping.get(key)]: the key is absent or bound to the empty string. *)
Definition not_get (mapping : gmap str str) (key : str) : bool :=
  match mapping !! key with
  | Some v => falsy v
  | None => true
  end.

(** [mapping[key]] *)
Definition getitem (mapping : gmap str str) (key : str) : result str :=
  match mapping !! key with
  | Some v => Ok v
  | None => Raise (KeyError key)
  end.

Module Credentials.

Record t : Type := Build {
  bearer_token : str;
  consumer_key : str;
  consumer_secret : str;
  access_token : str;
  access_secret : str
}.

Definition missing (mapping : gmap str str) : list str :=
  List.filter (not_get mapping) CREDENTIAL_KEYS.

Definition from_mapping (mapping : gmap str str) : result t :=
  let missing := missing mapping in
  if negb (bool_decide (missing = [])) then
    Raise (ValueError (lit "Missing X credentials: "
                         ++ join (lit ", ") missing))
  else
    v1 ← getitem mapping X_BEARER_TOKEN;
    v2 ← getitem mapping X_CONSUMER_KEY;
    v3 ← getitem mapping X_CONSUMER_SECRET;
    v4 ← getitem mapping X_ACCESS_TOKEN;
    v5 ← getitem mapping X_ACCESS_SECRET;
    Ok (Build v1 v2 v3 v4 v5).

End Credentials.

(** ** Files and the configuration file *)

Definition LF : N := 0x0A.
Definition CR : N := 0x0D.

(** What a path names on disk; [File] carries the decoded text. *)
Inductive node : Type :=
  | File (text : str)
  | Directory.

(** [os.path.exists(path)] *)
Definition exists_ (fs : gmap str node) (path : str) : bool :=
  bool_decide (is_Some (fs !! path)).

(** [open(path, "r", encoding="utf-8")], giving the text to be read. *)
Definition open (fs : gmap str node) (path : str) : result str :=
  match fs !! path with
  | Some (File text) => Ok text
  | Some Directory => Raise (IsADirectoryError path)
  | None => Raise (FileNotFoundError path)
  end.

(** Text mode translates the line ends CR LF and CR to LF. *)
Fixpoint universal_newlines (s : str) : str :=
  match s with
  | [] => []
  | c :: s' =>
    if c =? CR then
      LF :: match s' with
            | d :: s'' =>
              if d =? LF then universal_newlines s''
              else universal_newlines s'
            | [] => []
            end
    else c :: universal_newlines s'
  end.

(** [for raw_line in handle]: the lines, each with its line end. *)
Fixpoint lines_from (cur : str) (s : str) : list str :=
  match s with
  | [] => match cur with [] => [] | _ :: _ => [reverse cur] end
  | c :: s' =>
    if c =? LF then reverse (c :: cur) :: lines_from [] s'
    else lines_from (c :: cur) s'
  end.

Definition iter_lines (text : str) : list str :=
  lines_from [] (universal_newlines text).

(** [key, value = parts] *)
Definition unpack2 (parts : list str) : result (str * str) :=
  match parts with
  | [key; value] => Ok (key, value)
  | _ => Raise (ValueError (lit "wrong number of values to unpack"))
  end.

(** The body of the loop over the lines, lines 94 to 99. *)
Definition loop_body (config : gmap str str) (raw_line : str)
  : result (gmap str str) :=
  let line := strip raw_line in
  if falsy line || startswith (lit "#") line then Ok config
  else if contains (lit "=") line then
    '(key, value) ← unpack2 (split_1 (lit "=") line);
    Ok (<[strip key := strip value]> config)
  else Ok config.

Fixpoint for_lines (config : gmap str str) (lines : list str)
  : result (gmap str str) :=
  match lines with
  | [] => Ok config
  | raw_line :: rest =>
    config' ← loop_body config raw_line;
    for_lines config' rest
  end.

(** [json_load text] stands for [json.load] followed by the comprehension
    [{k: str(v) for k, v in data.items()}] of line 89. *)
Definition parse_config_file (json_load : str → result (gmap str str))
    (fs : gmap str node) (path : str) : result (gmap str str) :=
  if negb (exists_ fs path) then
    Raise (FileNotFoundError (lit "Config file " ++ path
                                ++ lit " does not exist"))
  else if endswith (lit ".json") (lower path) then
    handle ← open fs path;
    json_load handle
  else
    handle ← open fs path;
    for_lines ∅ (iter_lines handle).

(** ** The world outside the functions *)

Inductive level : Type := DEBUG | INFO | ERROR.

Inductive button_state : Type := normal | disabled.

(** What [root.after(0, ...)] is given by the worker.  [ErrorBox] holds
    the cell of the variable [exc] that the lambda of line 171 closes
    over, as it stands when the callback runs. *)
Inductive callback : Type :=
  | SetStatus (status : str)
  | ErrorBox (title : str) (exc : option exn)
  | SetButton (state : button_state).

Record world : Type := World {
  logged : list (level * str);      (* calls to [logger] *)
  requests : list str;               (* calls of [create_tweet], by text *)
  dialogs : list (str * str);        (* [messagebox.showerror] calls *)
  threads : list str;                (* workers started, by their text *)
  after_queue : list callback        (* the Tk event queue *)
}.

Definition logger (lvl : level) (msg : str) : M world unit :=
  modify (λ w, World (logged w ++ [(lvl, msg)]) (requests w) (dialogs w)
                     (threads w) (after_queue w)).

Definition send_request (text : str) : M world unit :=
  modify (λ w, World (logged w) (requests w ++ [text]) (dialogs w)
                     (threads w) (after_queue w)).

Definition showerror (title msg : str) : M world unit :=
  modify (λ w, World (logged w) (requests w) (dialogs w ++ [(title, msg)])
                     (threads w) (after_queue w)).

Definition start_thread (validated : str) : M world unit :=
  modify (λ w, World (logged w) (requests w) (dialogs w)
                     (threads w ++ [validated]) (after_queue w)).

Definition root_after (cb : callback) : M world unit :=
  modify (λ w, World (logged w) (requests w) (dialogs w) (threads w)
                     (after_queue w ++ [cb])).

(** ** [load_credentials] *)

(** [a or b] where [a] is [os.environ.get(key)] *)
Definition or_ (a : option str) (b : str) : str :=
  match a with
  | Some v => if falsy v then b else v
  | None => b
  end.

(** [config.get(key, default)] with the empty string as default *)
Definition get_default (config : gmap str str) (key : str) : str :=
  match config !! key with
  | Some v => v
  | None => []
  end.

(** The dictionary comprehension of line 109. *)
Definition merged (environ config : gmap str str) : gmap str str :=
  foldl (λ acc key, <[key := or_ (environ !! key) (get_default config key)]> acc)
        ∅ CREDENTIAL_KEYS.

(** [if config_path:] on an [Optional[str]] *)
Definition supplied (config_path : option str) : option str :=
  match config_path with
  | Some path => if falsy path then None else Some path
  | None => None
  end.

Local Open Scope py_scope.

(** Lines 104 to 107: the configuration mapping. *)
Definition load_config (json_load : str → result (gmap str str))
    (fs : gmap str node) (config_path : option str)
  : M world (gmap str str) :=
  match supplied config_path with
  | Some path =>
    config <- lift (parse_config_file json_load fs path);;
    logger DEBUG (lit "Loaded credentials from " ++ path);;;
    ret config
  | None => ret ∅
  end.

Definition load_credentials (json_load : str → result (gmap str str))
    (fs : gmap str node) (environ : gmap str str)
    (config_path : option str) : M world Credentials.t :=
  config <- load_config json_load fs config_path;;
  lift (Credentials.from_mapping (merged environ config)).

(** ** The API client *)

Module tweepy.

(** The keyword arguments [XClient.__init__] gives to [tweepy.Client]. *)
Record Client : Type := {
  bearer_token : str;
  consumer_key : str;
  consumer_secret : str;
  access_token : str;
  access_token_secret : str;
  wait_on_rate_limit : bool
}.

(** The value of [create_tweet]: [data] is [None] or a dictionary. *)
Record Response : Type := { data : option (gmap str str) }.

(** What [Client.create_tweet] answers: it may depend on the session and
    on the requests sent before; it raises or returns a response, or a
    value that is false in a boolean context ([None] here). *)
Definition create_tweet_t : Type :=
  Client → list str → str → result (option Response).

End tweepy.

(** [%s] and [{...}] of an [Optional[str]] *)
Definition format_opt (v : option str) : str :=
  match v with
  | Some s => s
  | None => lit "None"
  end.

Module XClient.

Record t : Type := { client : tweepy.Client }.

Definition init (credentials : Credentials.t) : t :=
  {| client :=
       {| tweepy.bearer_token := Credentials.bearer_token credentials;
          tweepy.consumer_key := Credentials.consumer_key credentials;
          tweepy.consumer_secret := Credentials.consumer_secret credentials;
          tweepy.access_token := Credentials.access_token credentials;
          tweepy.access_token_secret := Credentials.access_secret credentials;
          tweepy.wait_on_rate_limit := true |} |}.

(** [self.client.create_tweet(text=text)]: one request goes out, then
    the answer comes back or the call raises. *)
Definition create_tweet (api : tweepy.create_tweet_t) (self : t)
    (text : str) : M world (option tweepy.Response) := λ w,
  bind (send_request text) (λ _, lift (api (client self) (requests w) text)) w.

(** Line 72 *)
Definition tweet_id_of (response : option tweepy.Response) : option str :=
  match response with
  | Some r =>
    match tweepy.data r with
    | Some d => if bool_decide (d = ∅) then None else d !! lit "id"
    | None => None
    end
  | None => None
  end.

Definition post (api : tweepy.create_tweet_t) (self : t) (text : str)
    (dry_run : bool) : M world (option str) :=
  if dry_run then
    logger INFO (lit "[dry-run] Would have posted: " ++ text);;;
    ret None
  else
    response <- create_tweet api self text;;
    let tweet_id := tweet_id_of response in
    logger INFO (lit "Published tweet with id " ++ format_opt tweet_id);;;
    ret tweet_id.

End XClient.

(** ** The application window *)

Module TweetApp.

(** The attributes of the object; [text] is what the user has typed into
    the text box. *)
Record t : Type := Build {
  client : XClient.t;
  max_length : Z;
  dry_run : bool;
  text : str;
  count_var : str;
  post_button : button_state;
  status_var : str
}.

Definition _count_label (max_length : Z) (length : Z) : str :=
  lit "Characters: " ++ str_of_int length ++ lit "/" ++ str_of_int max_length.

Definition init (client : XClient.t) (max_length : Z) (dry_run : bool) : t :=
  Build client max_length dry_run [] (_count_label max_length 0) normal [].

(** The state of a method: the object and the world. *)
Definition in_world {A} (m : M world A) : M (t * world) A := λ s,
  match m s.2 with
  | (r, w') => (r, (s.1, w'))
  end.

Definition set_count_var (v : str) : M (t * world) unit :=
  modify (λ s, let self := s.1 in
    (Build (client self) (max_length self) (dry_run self) (text self) v
           (post_button self) (status_var self), s.2)).

Definition set_status_var (v : str) : M (t * world) unit :=
  modify (λ s, let self := s.1 in
    (Build (client self) (max_length self) (dry_run self) (text self)
           (count_var self) (post_button self) v, s.2)).

Definition config_post_button (state : button_state) : M (t * world) unit :=
  modify (λ s, let self := s.1 in
    (Build (client self) (max_length self) (dry_run self) (text self)
           (count_var self) state (status_var self), s.2)).

(** [text.get("1.0", "end-1c")] is the typed text; [text.get("1.0", "end")]
    has the newline Tk keeps at the end of a text widget. *)
Definition text_get_end_1c (self : t) : str := text self.
Definition text_get_end (self : t) : str := text self ++ [LF].

Definition update_count : M (t * world) unit := λ s,
  let self := s.1 in
  let content := text_get_end_1c self in
  set_count_var (_count_label (max_length self) (len content)) s.

(** The function [worker] of lines 164 to 174, for the object [self] and
    the text [validated] it closes over.  It runs on its own thread; the
    embedding runs it in one step.  The lambda of line 171 reads [exc] when
    the event loop runs it, and the except clause unbinds [exc] when it
    ends; which of the two comes first depends on how the threads
    interleave, so [bound] says whether the callback will find [exc]
    bound. *)
Definition worker (api : tweepy.create_tweet_t) (self : t)
    (validated : str) (bound : bool) : M world unit :=
  try_finally
    (try_except
       (tweet_id <- XClient.post api (client self) validated (dry_run self);;
        let status :=
          if dry_run self then lit "Logged locally (dry-run)."
          else lit "Posted! Tweet ID: " ++ format_opt tweet_id in
        root_after (SetStatus status))
       (λ exc,
        logger ERROR (lit "Failed to post update: " ++ exn_message exc);;;
        root_after (ErrorBox (lit "Post failed")
                             (if bound then Some exc else None));;;
        root_after (SetStatus [])))
    (root_after (SetButton normal)).

Definition post_message : M (t * world) unit := λ s,
  let self := s.1 in
  let content := text_get_end self in
  match validate_text content (max_length self) with
  | Raise (ValueError _ as exc) =>
    in_world (showerror (lit "Invalid text") (exn_message exc)) s
  | Raise exc => (Raise exc, s)
  | Ok validated =>
    (config_post_button disabled;;;
     set_status_var (if negb (dry_run self) then lit "Posting..."
                     else lit "Logging (dry-run)...");;;
     in_world (start_thread validated)) s
  end.

(** Running one callback of the event queue on the UI thread. *)
Definition run_callback (cb : callback) : M (t * world) unit :=
  match cb with
  | SetStatus status => set_status_var status
  | ErrorBox title (Some exc) => in_world (showerror title (exn_message exc))
  | ErrorBox title None => raise (NameError (lit "exc"))
  | SetButton state => config_post_button state
  end.

End TweetApp.

Local Close Scope py_scope.

(** ** Notions used to state the properties *)

(** A key "resolves to empty or absent" in a mapping. *)
Definition absent (mapping : gmap str str) (key : str) : Prop :=
  mapping !! key = None ∨ mapping !! key = Some [].

(** A mapping that lacks the consumer secret and has an empty access
    secret, and one with all five keys. *)
Definition mapping_partial : gmap str str :=
  <[X_BEARER_TOKEN := lit "abc"]>
  (<[X_CONSUMER_KEY := lit "ck"]>
  (<[X_ACCESS_TOKEN := lit "at"]>
  (<[X_ACCESS_SECRET := []]> ∅))).

Definition mapping_full : gmap str str :=
  <[X_CONSUMER_SECRET := lit "cs"]> (<[X_ACCESS_SECRET := lit "as"]> mapping_partial).

(** An environment that overrides the bearer token and sets an empty
    consumer key, over a file mapping with both. *)
Definition environ_example : gmap str str :=
  <[X_BEARER_TOKEN := lit "from-env"]> (<[X_CONSUMER_KEY := []]> ∅).

Definition config_example : gmap str str :=
  <[X_BEARER_TOKEN := lit "from-file"]> (<[X_CONSUMER_KEY := lit "ck-file"]> ∅).

(** The characters [=] and [#]. *)
Definition EQ : N := 0x3D.
Definition HASH : N := 0x23.

(** A line the parser ignores: blank, or a comment. *)
Definition ignored (raw_line : str) : Prop :=
  strip raw_line = [] ∨ ∃ rest, strip raw_line = HASH :: rest.

(** A line that is not ignored and has an [=]: cut at its first [=], with
    both sides trimmed, it gives [key] and [value]. *)
Definition binds (raw_line key value : str) : Prop :=
  ¬ ignored raw_line
  ∧ ∃ a b, strip raw_line = a ++ EQ :: b ∧ (EQ ∉ a)
           ∧ key = strip a ∧ value = strip b.

(** A disk with one line-oriented credentials file that sets a key twice,
    and the decoder of a disk without JSON files. *)
Definition disk_example : gmap str node :=
  <[lit "creds.env" :=
      File (lit "# credentials" ++ [LF] ++ lit "X_BEARER_TOKEN = old" ++ [CR; LF]
            ++ [LF] ++ lit "X_CONSUMER_KEY=ck" ++ [LF]
            ++ lit "  X_BEARER_TOKEN=new=er  " ++ [LF] ++ lit "no separator")]> ∅.

Definition no_json : str → result (gmap str str) :=
  λ _, Raise (LibraryError (lit "not a JSON document")).

(** A window in its initial state in which the user has typed blanks. *)
Definition app_blank : TweetApp.t :=
  let app := TweetApp.init
               (XClient.init (Credentials.Build (lit "abc") (lit "ck") (lit "cs")
                                                (lit "at") (lit "as")))
               280 false in
  TweetApp.Build (TweetApp.client app) (TweetApp.max_length app)
                 (TweetApp.dry_run app) (lit "   ") (TweetApp.count_var app)
                 (TweetApp.post_button app) (TweetApp.status_var app).

(** A disk with a file whose name ends in [.JSON]. *)
Definition disk_json : gmap str node :=
  <[lit "Keys.JSON" := File (lit "{}")]> disk_example.

(** A window in which the user has typed a text with blanks around it, and
    an API that refuses every request. *)
Definition app_typed : TweetApp.t :=
  TweetApp.Build (TweetApp.client app_blank) 280 false (lit "  hello world ")
                 (TweetApp.count_var app_blank) normal [].

Definition api_down : tweepy.create_tweet_t :=
  λ _ _ _, Raise (LibraryError (lit "503 Service Unavailable")).

(** Whether a callback changes the state of the button. *)
Definition is_set_button (cb : callback) : bool :=
  match cb with
  | SetButton _ => true
  | SetStatus _ | ErrorBox _ _ => false
  end.

(** ** A session at the window

    What can happen once the window is up, one event at a time.  The
    worker threads the window has started and that have not run yet are
    kept in [running]; a worker runs in one step (see [TweetApp.worker]).
    Tk does not call the command of a disabled button, and it runs the
    queued callbacks oldest first; an exception of a callback is reported
    by Tk and the loop goes on. *)

Inductive event : Type :=
  | Edit (new_text : str)               (* the user changes the text box *)
  | KeyRelease                          (* a key is released in the text box *)
  | Click                               (* the user presses the Post button *)
  | WorkerRuns (n : nat) (bound : bool) (* the n-th waiting worker runs *)
  | Callback.                           (* the loop runs the oldest callback *)

Module Session.

Record t : Type := Build {
  app : TweetApp.t;
  outside : world;
  running : list str
}.

(** The window as [run] creates it, over the records logged so far. *)
Definition start (client : XClient.t) (max_length : Z) (dry_run : bool)
    (records : list (level * str)) : t :=
  Build (TweetApp.init client max_length dry_run) (World records [] [] [] []) [].

Definition set_text (new_text : str) (self : TweetApp.t) : TweetApp.t :=
  TweetApp.Build (TweetApp.client self) (TweetApp.max_length self)
    (TweetApp.dry_run self) new_text (TweetApp.count_var self)
    (TweetApp.post_button self) (TweetApp.status_var self).

Definition take_callback (w : world) : option (callback * world) :=
  match after_queue w with
  | cb :: rest =>
    Some (cb, World (logged w) (requests w) (dialogs w) (threads w) rest)
  | [] => None
  end.

Definition step (api : tweepy.create_tweet_t) (s : t) (e : event) : option t :=
  match e with
  | Edit new_text => Some (Build (set_text new_text (app s)) (outside s) (running s))
  | KeyRelease =>
    let out := TweetApp.update_count (app s, outside s) in
    Some (Build out.2.1 out.2.2 (running s))
  | Click =>
    match TweetApp.post_button (app s) with
    | disabled => None
    | normal =>
      let out := TweetApp.post_message (app s, outside s) in
      Some (Build out.2.1 out.2.2
              (running s ++ drop (length (threads (outside s))) (threads out.2.2)))
    end
  | WorkerRuns n bound =>
    match running s !! n with
    | Some validated =>
      let out := TweetApp.worker api (app s) validated bound (outside s) in
      Some (Build (app s) out.2 (delete n (running s)))
    | None => None
    end
  | Callback =>
    match take_callback (outside s) with
    | Some (cb, w) =>
      let out := TweetApp.run_callback cb (app s, w) in
      Some (Build out.2.1 out.2.2 (running s))
    | None => None
    end
  end.

Fixpoint run (api : tweepy.create_tweet_t) (s : t) (events : list event)
  : option t :=
  match events with
  | [] => Some s
  | e :: rest =>
    match step api s e with
    | Some s' => run api s' rest
    | None => None
    end
  end.

End Session.

(** The callbacks of a queue that change the button, counted; the workers
    in flight: those waiting to run and those whose enabling callback is
    still queued. *)
Definition enables (queue : list callback) : nat :=
  length (List.filter is_set_button queue).

Definition in_flight (s : Session.t) : nat :=
  (length (Session.running s) + enables (after_queue (Session.outside s)))%nat.

(** A text that [validate_text] returns unchanged. *)
Definition accepted (max_length : Z) (text : str) : Prop :=
  validate_text text max_length = Ok text.

(** What every state of a session satisfies. *)
Definition session_inv (client : XClient.t) (max_length : Z) (dry_run : bool)
    (s : Session.t) : Prop :=
  TweetApp.client (Session.app s) = client
  ∧ TweetApp.max_length (Session.app s) = max_length
  ∧ TweetApp.dry_run (Session.app s) = dry_run
  ∧ in_flight s = match TweetApp.post_button (Session.app s) with
                  | normal => 0%nat
                  | disabled => 1%nat
                  end
  ∧ (SetButton disabled ∉ after_queue (Session.outside s))
  ∧ Forall (accepted max_length) (threads (Session.outside s))
  ∧ (if dry_run then requests (Session.outside s) = []
     else requests (Session.outside s) ++ Session.running s
          = threads (Session.outside s)).

(** ** The entry point *)

Module argparse.

(** What [parse_args] returns. *)
Record Namespace : Type := {
  config : option str;
  dry_run : bool;
  max_length : Z;
  verbose : bool
}.

End argparse.

(** [configure_logging]: the level it hands to [logging.basicConfig]. *)
Definition configure_logging (verbose : bool) : level :=
  if verbose then DEBUG else INFO.

(** How [run] ends: by [SystemExit], or in the event loop of the window
    it has built, whose further life is a [Session]. *)
Inductive run_result : Type :=
  | SystemExit (code : Z)
  | mainloop (app : TweetApp.t).

Definition run (json_load : str → result (gmap str str)) (fs : gmap str node)
    (environ : gmap str str) (args : argparse.Namespace)
  : world → (level * run_result) * world := λ w,
  let lvl := configure_logging (argparse.verbose args) in
  match load_credentials json_load fs environ (argparse.config args) w with
  | (Raise exc, w1) =>
    ((lvl, SystemExit 1),
     (logger ERROR (lit "Credential loading failed: " ++ exn_message exc) w1).2)
  | (Ok credentials, w1) =>
    let client := XClient.init credentials in
    ((lvl, mainloop (TweetApp.init client (argparse.max_length args)
                                   (argparse.dry_run args))),
     w1)
  end.

(** * Properties *)

(** ** Trimming *)

Section Strip.

Implicit Types (s t l r : str) (c : N).

Lemma lstrip_whitespace_app l s : whitespace l → lstrip (l ++ s) = lstrip s.
Proof.
  induction 1 as [|c l Hc _ IH]; simpl; [done|]. by rewrite Hc.
Qed.

Lemma lstrip_whitespace l : whitespace l → lstrip l = [].
Proof.
  intros H. rewrite <- (app_nil_r l). by rewrite lstrip_whitespace_app.
Qed.

Lemma lstrip_head_fixed s :
  (∀ c, head s = Some c → isspace c = false) → lstrip s = s.
Proof.
  destruct s as [|c s]; simpl; [done|]. intros H. by rewrite (H c).
Qed.

Lemma lstrip_split s :
  ∃ l, s = l ++ lstrip s ∧ whitespace l
       ∧ ∀ c, head (lstrip s) = Some c → isspace c = false.
Proof.
  induction s as [|c s (l & Hs & Hl & Hh)]; simpl.
  - exists []. repeat split; [constructor | done].
  - destruct (isspace c) eqn:Hc.
    + exists (c :: l). repeat split; [by rewrite <- app_comm_cons, <- Hs | by constructor | done].
    + exists []. repeat split; [constructor | simpl; congruence].
Qed.

Lemma whitespace_reverse l : whitespace l → whitespace (reverse l).
Proof. unfold whitespace. by rewrite Forall_reverse. Qed.

Lemma rstrip_whitespace_app s r : whitespace r → rstrip (s ++ r) = rstrip s.
Proof.
  intros H. unfold rstrip. rewrite reverse_app.
  by rewrite lstrip_whitespace_app by by apply whitespace_reverse.
Qed.

Lemma rstrip_last_fixed s :
  (∀ c, last s = Some c → isspace c = false) → rstrip s = s.
Proof.
  intros H. unfold rstrip. rewrite lstrip_head_fixed.
  - apply reverse_involutive.
  - intros c. rewrite head_reverse. apply H.
Qed.

Lemma rstrip_split s :
  ∃ r, s = rstrip s ++ r ∧ whitespace r
       ∧ ∀ c, last (rstrip s) = Some c → isspace c = false.
Proof.
  destruct (lstrip_split (reverse s)) as (l & Hs & Hl & Hh).
  exists (reverse l). unfold rstrip. repeat split.
  - rewrite <- reverse_app, <- Hs. by rewrite reverse_involutive.
  - by apply whitespace_reverse.
  - intros c. rewrite last_reverse. apply Hh.
Qed.

Lemma strip_trimmed text : trimmed_of text (strip text).
Proof.
  unfold strip.
  destruct (lstrip_split text) as (l & Ht & Hl & Hh).
  destruct (rstrip_split (lstrip text)) as (r & Hu & Hr & Hlast).
  exists l, r. repeat split; [by rewrite <- Hu | done | done | | done].
  intros c Hc. apply Hh. rewrite Hu.
  destruct (rstrip (lstrip text)); [done|]. exact Hc.
Qed.

Lemma trimmed_strip text t : trimmed_of text t → t = strip text.
Proof.
  intros (l & r & -> & Hl & Hr & Hh & Hlast). unfold strip.
  rewrite lstrip_whitespace_app by done.
  destruct t as [|c t].
  - simpl. rewrite (lstrip_whitespace r) by done. done.
  - rewrite lstrip_head_fixed.
    + rewrite rstrip_whitespace_app by done. by rewrite rstrip_last_fixed.
    + intros c'. simpl. apply Hh.
Qed.

Lemma strip_idemp s : strip (strip s) = strip s.
Proof.
  symmetry. apply trimmed_strip.
  destruct (strip_trimmed s) as (l & r & _ & _ & _ & Hh & Hlast).
  exists [], []. rewrite app_nil_r. repeat split; try done; constructor.
Qed.

End Strip.

(** ** [validate_text] *)

Lemma falsy_nil (s : str) : falsy s = true ↔ s = [].
Proof. by destruct s. Qed.

Lemma validate_text_Ok text max_length r :
  validate_text text max_length = Ok r ↔
  r = strip text ∧ strip text ≠ [] ∧ (len (strip text) ≤ max_length)%Z.
Proof.
  unfold validate_text. destruct (strip text) as [|c t] eqn:E; simpl.
  - split; [done | by intros (_ & ? & _)].
  - destruct (Z.gtb_spec (len (c :: t)) max_length).
    + split; [done | intros (_ & _ & ?); lia].
    + split; [intros [= <-]; repeat split; [done | lia] | by intros (-> & _)].
Qed.

(** C1.  [validate_text] succeeds exactly when the text without its
    leading and trailing white space is not empty and no longer than the
    maximum; what it returns on success is that trimmed text, which is
    the input with white space cut from its two ends only.  The function
    reads and writes nothing but its arguments and its result.  This holds
    for every integer maximum, the positive ones among them. *)
Theorem validate_text_correct (text : str) (max_length : Z) :
  (∀ t, trimmed_of text t ↔ t = strip text)
  ∧ (succeeds (validate_text text max_length)
     ↔ strip text ≠ [] ∧ (len (strip text) ≤ max_length)%Z)
  ∧ (∀ r, validate_text text max_length = Ok r → r = strip text).
Proof.
  split; [|split].
  - intros t. split; [apply trimmed_strip | intros ->; apply strip_trimmed].
  - split.
    + intros [r Hr]. by apply validate_text_Ok in Hr as (_ & ? & ?).
    + intros [? ?]. exists (strip text). by apply validate_text_Ok.
  - intros r Hr. by apply validate_text_Ok in Hr as (? & _).
Qed.

(** C10.  Validating the result of a successful validation again, with the
    same maximum, succeeds and returns that result. *)
Theorem validate_text_idempotent (text : str) (max_length : Z) (r : str) :
  validate_text text max_length = Ok r →
  validate_text r max_length = Ok r.
Proof.
  intros (-> & Hne & Hlen)%validate_text_Ok.
  apply validate_text_Ok. by rewrite strip_idemp.
Qed.

Lemma validate_text_idempotent_witness :
  validate_text (lit "  good  morning ") 280 = Ok (lit "good  morning")
  ∧ validate_text (lit "good  morning") 280 = Ok (lit "good  morning").
Proof.
  split; [reflexivity|].
  apply (validate_text_idempotent (lit "  good  morning ") 280). reflexivity.
Defined.


(** ** Credentials *)

Lemma not_get_absent mapping key : not_get mapping key = true ↔ absent mapping key.
Proof.
  unfold not_get, absent.
  destruct (mapping !! key) as [[|c v]|]; simpl; split; try done; auto.
  by intros [|].
Qed.

Lemma not_get_present mapping key :
  not_get mapping key = false ↔ ∃ v, mapping !! key = Some v ∧ v ≠ [].
Proof.
  unfold not_get.
  destruct (mapping !! key) as [[|c v]|]; simpl; split; try done.
  - by intros (v & [= <-] & ?).
  - intros _. by exists (c :: v).
  - by intros (v & ? & _).
Qed.

Lemma elem_of_missing mapping key :
  key ∈ Credentials.missing mapping ↔ key ∈ CREDENTIAL_KEYS ∧ absent mapping key.
Proof.
  unfold Credentials.missing.
  rewrite !list_elem_of_In, filter_In, not_get_absent. done.
Qed.

Lemma filter_sublist {A} (f : A → bool) (l : list A) : sublist (List.filter f l) l.
Proof.
  induction l as [|x l IH]; simpl; [constructor|].
  destruct (f x); by constructor.
Qed.

(** The message tells the missing keys apart: two mappings with the same
    message lack the same keys. *)
Lemma join_missing_inj m1 m2 :
  join (lit ", ") (Credentials.missing m1) = join (lit ", ") (Credentials.missing m2) →
  Credentials.missing m1 = Credentials.missing m2.
Proof.
  unfold Credentials.missing, CREDENTIAL_KEYS. simpl.
  destruct (not_get m1 X_BEARER_TOKEN), (not_get m1 X_CONSUMER_KEY),
    (not_get m1 X_CONSUMER_SECRET), (not_get m1 X_ACCESS_TOKEN),
    (not_get m1 X_ACCESS_SECRET);
  destruct (not_get m2 X_BEARER_TOKEN), (not_get m2 X_CONSUMER_KEY),
    (not_get m2 X_CONSUMER_SECRET), (not_get m2 X_ACCESS_TOKEN),
    (not_get m2 X_ACCESS_SECRET);
  first [ reflexivity | intros H; vm_compute in H; discriminate H ].
Qed.

Lemma getitem_present mapping key :
  key ∈ CREDENTIAL_KEYS → Credentials.missing mapping = [] →
  ∃ v, mapping !! key = Some v ∧ v ≠ [] ∧ getitem mapping key = Ok v.
Proof.
  intros Hk Hm.
  destruct (not_get mapping key) eqn:E.
  - apply not_get_absent in E.
    assert (key ∈ Credentials.missing mapping) as Hin by by apply elem_of_missing.
    rewrite Hm in Hin. by apply elem_of_nil in Hin.
  - apply not_get_present in E as (v & Hv & Hne).
    exists v. unfold getitem. by rewrite Hv.
Qed.

(** C2.  When one or more of the five keys is absent from the mapping or
    bound to the empty string, [Credentials.from_mapping] raises one
    [ValueError] whose message is the fixed prefix followed by the missing
    keys joined with a comma and a space; the keys named are exactly the
    missing ones, in the order of [CREDENTIAL_KEYS], and the message tells
    any two sets of missing keys apart.  When all five are bound to
    non-empty strings it returns the record of their values. *)
Theorem from_mapping_names_missing_keys (mapping : gmap str str) :
  let missing := Credentials.missing mapping in
  (∀ key, key ∈ missing ↔ key ∈ CREDENTIAL_KEYS ∧ absent mapping key)
  ∧ sublist missing CREDENTIAL_KEYS
  ∧ (∀ mapping', join (lit ", ") (Credentials.missing mapping') = join (lit ", ") missing →
                 Credentials.missing mapping' = missing)
  ∧ ((∃ key, key ∈ CREDENTIAL_KEYS ∧ absent mapping key) →
     Credentials.from_mapping mapping
     = Raise (ValueError (lit "Missing X credentials: " ++ join (lit ", ") missing)))
  ∧ ((∀ key, key ∈ CREDENTIAL_KEYS → ¬ absent mapping key) →
     ∃ c, Credentials.from_mapping mapping = Ok c
          ∧ mapping !! X_BEARER_TOKEN = Some (Credentials.bearer_token c)
          ∧ mapping !! X_CONSUMER_KEY = Some (Credentials.consumer_key c)
          ∧ mapping !! X_CONSUMER_SECRET = Some (Credentials.consumer_secret c)
          ∧ mapping !! X_ACCESS_TOKEN = Some (Credentials.access_token c)
          ∧ mapping !! X_ACCESS_SECRET = Some (Credentials.access_secret c)).
Proof.
  intros missing. split; [|split; [|split; [|split]]].
  - intros key. apply elem_of_missing.
  - apply filter_sublist.
  - intros mapping'. apply join_missing_inj.
  - intros (key & Hk & Ha). unfold Credentials.from_mapping. fold missing.
    assert (key ∈ missing) as Hin by by apply elem_of_missing.
    destruct missing; [by apply elem_of_nil in Hin | done].
  - intros Hall.
    assert (missing = []) as Hnil.
    { destruct missing as [|k ks] eqn:E; [done|].
      assert (k ∈ Credentials.missing mapping) as Hin by (fold missing; rewrite E; left).
      apply elem_of_missing in Hin as [Hk Ha]. by destruct (Hall k Hk). }
    unfold Credentials.from_mapping. fold missing. rewrite Hnil. simpl.
    destruct (getitem_present mapping X_BEARER_TOKEN) as (v1 & H1 & _ & ->);
      [unfold CREDENTIAL_KEYS; set_solver | done |].
    destruct (getitem_present mapping X_CONSUMER_KEY) as (v2 & H2 & _ & ->);
      [unfold CREDENTIAL_KEYS; set_solver | done |].
    destruct (getitem_present mapping X_CONSUMER_SECRET) as (v3 & H3 & _ & ->);
      [unfold CREDENTIAL_KEYS; set_solver | done |].
    destruct (getitem_present mapping X_ACCESS_TOKEN) as (v4 & H4 & _ & ->);
      [unfold CREDENTIAL_KEYS; set_solver | done |].
    destruct (getitem_present mapping X_ACCESS_SECRET) as (v5 & H5 & _ & ->);
      [unfold CREDENTIAL_KEYS; set_solver | done |].
    simpl. eexists. split; [reflexivity|]. done.
Qed.

Lemma from_mapping_names_missing_keys_witness :
  Credentials.from_mapping mapping_partial
  = Raise (ValueError (lit "Missing X credentials: X_CONSUMER_SECRET, X_ACCESS_SECRET"))
  ∧ Credentials.from_mapping mapping_full
    = Ok (Credentials.Build (lit "abc") (lit "ck") (lit "cs") (lit "at") (lit "as")).
Proof.
  split.
  - destruct (from_mapping_names_missing_keys mapping_partial) as (_ & _ & _ & Hraise & _).
    rewrite Hraise; [reflexivity|].
    exists X_ACCESS_SECRET. split; [vm_compute; set_solver | right; reflexivity].
  - destruct (from_mapping_names_missing_keys mapping_full) as (_ & _ & _ & _ & Hok).
    destruct Hok as (c & -> & H1 & H2 & H3 & H4 & H5).
    + intros key Hk [Ha|Ha]; revert Ha; unfold CREDENTIAL_KEYS in Hk;
        repeat (apply elem_of_cons in Hk as [->|Hk]); try (by apply elem_of_nil in Hk);
        vm_compute; discriminate.
    + destruct c. simpl in *. vm_compute in H1, H2, H3, H4, H5.
      injection H1 as <-. injection H2 as <-. injection H3 as <-.
      injection H4 as <-. injection H5 as <-. reflexivity.
Defined.

(** ** Merging the environment over the file *)

Lemma foldl_insert_lookup (f : str → str) (keys : list str) (acc : gmap str str) key :
  foldl (λ acc k, <[k := f k]> acc) acc keys !! key
  = if decide (key ∈ keys) then Some (f key) else acc !! key.
Proof.
  revert acc. induction keys as [|k keys IH]; intros acc; simpl.
  - destruct (decide (key ∈ [])) as [H|_]; [by apply elem_of_nil in H | done].
  - rewrite IH. destruct (decide (key ∈ keys)) as [Hin|Hnin].
    + rewrite decide_True by by right. done.
    + destruct (decide (key = k)) as [->|Hne].
      * rewrite decide_True by by left. apply lookup_insert_eq.
      * rewrite decide_False by (intros [?|?]%elem_of_cons; done).
        by apply lookup_insert_ne.
Qed.

Lemma merged_lookup environ config key :
  key ∈ CREDENTIAL_KEYS →
  merged environ config !! key = Some (or_ (environ !! key) (get_default config key)).
Proof.
  intros Hk. unfold merged. rewrite foldl_insert_lookup. by rewrite decide_True.
Qed.

(** C3.  For each of the five key names, the value [load_credentials]
    merges is the value of the environment variable when that is set and
    not empty; otherwise the value from the file when the file has the key;
    otherwise the empty string.  [load_credentials] assembles the
    credentials from that merged mapping. *)
Theorem merged_environment_over_file (environ config : gmap str str) (key : str) :
  key ∈ CREDENTIAL_KEYS →
  (∀ v, environ !! key = Some v → v ≠ [] → merged environ config !! key = Some v)
  ∧ (absent environ key → ∀ v, config !! key = Some v →
     merged environ config !! key = Some v)
  ∧ (absent environ key → config !! key = None →
     merged environ config !! key = Some [])
  ∧ (∀ json_load fs config_path w w',
       load_config json_load fs config_path w = (Ok config, w') →
       load_credentials json_load fs environ config_path w
       = (Credentials.from_mapping (merged environ config), w')).
Proof.
  intros Hk. rewrite merged_lookup by done. unfold get_default.
  split; [|split; [|split]].
  - intros v -> Hv. simpl. by destruct v.
  - intros [->| ->] v ->; done.
  - intros [->| ->] ->; done.
  - intros json_load fs config_path w w' Hc.
    unfold load_credentials, bind. by rewrite Hc.
Qed.

Lemma merged_environment_over_file_witness :
  merged environ_example config_example !! X_BEARER_TOKEN = Some (lit "from-env")
  ∧ merged environ_example config_example !! X_CONSUMER_KEY = Some (lit "ck-file")
  ∧ merged environ_example config_example !! X_ACCESS_TOKEN = Some [].
Proof.
  split; [|split].
  - destruct (merged_environment_over_file environ_example config_example X_BEARER_TOKEN)
      as (Henv & _); [vm_compute; set_solver|].
    apply Henv; [reflexivity | discriminate].
  - destruct (merged_environment_over_file environ_example config_example X_CONSUMER_KEY)
      as (_ & Hfile & _); [vm_compute; set_solver|].
    apply Hfile; [right; reflexivity | reflexivity].
  - destruct (merged_environment_over_file environ_example config_example X_ACCESS_TOKEN)
      as (_ & _ & Hnone & _); [vm_compute; set_solver|].
    apply Hnone; [left; reflexivity | reflexivity].
Defined.

(** ** Publishing *)

Lemma tweet_id_of_Some response id :
  XClient.tweet_id_of response = Some id ↔
  ∃ r d, response = Some r ∧ tweepy.data r = Some d ∧ d !! lit "id" = Some id.
Proof.
  unfold XClient.tweet_id_of. split.
  - destruct response as [[[d|]]|]; try done. simpl.
    case_bool_decide; [done|]. intros Hid. by exists {| tweepy.data := Some d |}, d.
  - intros (r & d & -> & Hd & Hid). rewrite Hd.
    case_bool_decide as He; [|done]. subst d. by rewrite lookup_empty in Hid.
Qed.

(** C4.  With the dry-run flag set, [XClient.post] sends no request: the
    list of requests is as before, whatever the API would have answered.
    It logs the text it would have posted, at level INFO, changes nothing
    else, and returns [None]. *)
Theorem post_dry_run_no_request (api : tweepy.create_tweet_t) (self : XClient.t)
    (text : str) (w : world) :
  XClient.post api self text true w
  = (Ok None,
     World (logged w ++ [(INFO, lit "[dry-run] Would have posted: " ++ text)])
           (requests w) (dialogs w) (threads w) (after_queue w))
  ∧ requests (XClient.post api self text true w).2 = requests w
  ∧ ∀ api', XClient.post api' self text true w = XClient.post api self text true w.
Proof. repeat split. Qed.

(** C5.  With the dry-run flag clear, [XClient.post] sends exactly one
    create-tweet request, for the given text.  When the request raises,
    [post] raises the same exception and logs nothing.  When it returns,
    [post] returns the value bound to ["id"] in the data of the response,
    or [None] when the response is false, has no data or has no ["id"]. *)
Theorem post_publishes_once (api : tweepy.create_tweet_t) (self : XClient.t)
    (text : str) (w : world) :
  let out := XClient.post api self text false w in
  requests out.2 = requests w ++ [text]
  ∧ dialogs out.2 = dialogs w ∧ threads out.2 = threads w
  ∧ after_queue out.2 = after_queue w
  ∧ match api (XClient.client self) (requests w) text with
    | Raise e => out.1 = Raise e ∧ logged out.2 = logged w
    | Ok response =>
      ∃ tweet_id,
        out.1 = Ok tweet_id
        ∧ logged out.2
          = logged w ++ [(INFO, lit "Published tweet with id " ++ format_opt tweet_id)]
        ∧ (∀ id, tweet_id = Some id ↔
             ∃ r d, response = Some r ∧ tweepy.data r = Some d
                    ∧ d !! lit "id" = Some id)
    end.
Proof.
  unfold XClient.post, XClient.create_tweet, bind, lift, send_request, modify, logger, ret.
  simpl. destruct (api (XClient.client self) (requests w) text) as [response|e]; simpl.
  - repeat split; try done. exists (XClient.tweet_id_of response).
    repeat split; try done; by apply tweet_id_of_Some.
  - done.
Qed.

(** ** The configuration file *)

Section Lines.

Implicit Types (s a b : str) (x c : N) (config : gmap str str).

Lemma startswith_single x s :
  startswith [x] s = match s with c :: _ => x =? c | [] => false end.
Proof. destruct s; simpl; [done|]. apply andb_true_r. Qed.

Lemma split_1_first x a b : x ∉ a → split_1 [x] (a ++ x :: b) = [a; b].
Proof.
  induction a as [|c a IH]; intros Hx.
  - simpl. by rewrite N.eqb_refl.
  - apply not_elem_of_cons in Hx as [Hne Hx].
    change (split_1 [x] ((c :: a) ++ x :: b))
      with (if startswith [x] (c :: a ++ x :: b) then [[]; drop 1 (c :: a ++ x :: b)]
            else match split_1 [x] (a ++ x :: b) with
                 | head :: rest => (c :: head) :: rest
                 | [] => [[c]]
                 end).
    rewrite startswith_single, IH by done.
    by rewrite (proj2 (N.eqb_neq x c)).
Qed.

Lemma contains_single_true x s :
  contains [x] s = true → ∃ a b, s = a ++ x :: b ∧ x ∉ a.
Proof.
  induction s as [|c s IH]; [done|].
  change (contains [x] (c :: s)) with (startswith [x] (c :: s) || contains [x] s).
  rewrite startswith_single. destruct (N.eqb_spec x c) as [->|Hne]; simpl.
  - intros _. exists [], s. split; [done | apply not_elem_of_nil].
  - intros (a & b & -> & Ha)%IH. exists (c :: a), b.
    split; [done|]. by apply not_elem_of_cons.
Qed.

Lemma contains_single_false x s : contains [x] s = false → x ∉ s.
Proof.
  induction s as [|c s IH]; [intros _; apply not_elem_of_nil|].
  change (contains [x] (c :: s)) with (startswith [x] (c :: s) || contains [x] s).
  rewrite startswith_single. destruct (N.eqb_spec x c) as [->|Hne]; simpl; [done|].
  intros ?%IH. by apply not_elem_of_cons.
Qed.

Lemma contains_single_elem x a b : contains [x] (a ++ x :: b) = true.
Proof.
  destruct (contains [x] (a ++ x :: b)) eqn:E; [done|].
  apply contains_single_false in E. destruct E. apply elem_of_app. right. left.
Qed.

Lemma ignored_test raw_line :
  falsy (strip raw_line) || startswith (lit "#") (strip raw_line) = true
  ↔ ignored raw_line.
Proof.
  unfold ignored. change (lit "#") with [HASH]. rewrite startswith_single.
  destruct (strip raw_line) as [|c rest].
  - split; [by left | done].
  - cbn [falsy orb]. destruct (N.eqb_spec HASH c) as [<-|Hne]; split; try done.
    + intros _. right. by exists rest.
    + intros [?|[rest' ?]]; congruence.
Qed.

Lemma loop_body_ignored config raw_line :
  ignored raw_line → loop_body config raw_line = Ok config.
Proof.
  intros H%ignored_test. unfold loop_body. by rewrite H.
Qed.

Lemma loop_body_split config raw_line a b :
  ¬ ignored raw_line → strip raw_line = a ++ EQ :: b → EQ ∉ a →
  loop_body config raw_line = Ok (<[strip a := strip b]> config).
Proof.
  intros Hi Hs Ha. unfold loop_body.
  destruct (falsy (strip raw_line) || startswith (lit "#") (strip raw_line)) eqn:E.
  { by apply ignored_test in E. }
  rewrite Hs. change (lit "=") with [EQ].
  by rewrite contains_single_elem, split_1_first.
Qed.

Lemma loop_body_no_separator config raw_line :
  EQ ∉ strip raw_line → loop_body config raw_line = Ok config.
Proof.
  intros Hn. unfold loop_body.
  destruct (falsy (strip raw_line) || startswith (lit "#") (strip raw_line)); [done|].
  change (lit "=") with [EQ].
  destruct (contains [EQ] (strip raw_line)) eqn:E; [|done].
  apply contains_single_true in E as (a & b & E & _).
  destruct Hn. rewrite E. apply elem_of_app. right. left.
Qed.

Lemma loop_body_binds config raw_line key value :
  binds raw_line key value → loop_body config raw_line = Ok (<[key := value]> config).
Proof.
  intros (Hi & a & b & Hs & Ha & -> & ->). by apply loop_body_split.
Qed.

Lemma loop_body_cases config raw_line :
  (∃ key value, binds raw_line key value
                ∧ loop_body config raw_line = Ok (<[key := value]> config))
  ∨ ((∀ key value, ¬ binds raw_line key value)
     ∧ loop_body config raw_line = Ok config).
Proof.
  destruct (falsy (strip raw_line) || startswith (lit "#") (strip raw_line)) eqn:E.
  - apply ignored_test in E. right. split; [|by apply loop_body_ignored].
    by intros key value [Hi _].
  - assert (¬ ignored raw_line) as Hi.
    { intros H%ignored_test. congruence. }
    destruct (contains [EQ] (strip raw_line)) eqn:Ec.
    + apply contains_single_true in Ec as (a & b & Hs & Ha). left.
      exists (strip a), (strip b). split; [|by apply loop_body_split].
      split; [done|]. by exists a, b.
    + apply contains_single_false in Ec. right.
      split; [|by apply loop_body_no_separator].
      intros key value (_ & a & b & Hs & _). destruct Ec. rewrite Hs.
      apply elem_of_app. right. left.
Qed.

End Lines.

Section ForLines.

Implicit Types (config : gmap str str) (lines : list str).

Lemma for_lines_total config lines : ∃ config', for_lines config lines = Ok config'.
Proof.
  revert config. induction lines as [|raw_line rest IH]; intros config; simpl.
  - by exists config.
  - destruct (loop_body_cases config raw_line) as [(k & v & _ & ->)|[_ ->]]; apply IH.
Qed.

Lemma for_lines_app config l1 l2 :
  for_lines config (l1 ++ l2) = for_lines config l1 ≫= λ config', for_lines config' l2.
Proof.
  revert config. induction l1 as [|raw_line rest IH]; intros config; simpl; [done|].
  destruct (loop_body config raw_line); simpl; [apply IH | done].
Qed.

Lemma for_lines_skip config l1 raw_line l2 :
  ignored raw_line →
  for_lines config (l1 ++ raw_line :: l2) = for_lines config (l1 ++ l2).
Proof.
  intros Hi. rewrite !for_lines_app.
  destruct (for_lines config l1); simpl; [|done]. by rewrite loop_body_ignored.
Qed.

Lemma for_lines_keeps config lines key :
  (∀ raw_line value, raw_line ∈ lines → ¬ binds raw_line key value) →
  ∃ config', for_lines config lines = Ok config' ∧ config' !! key = config !! key.
Proof.
  revert config. induction lines as [|raw_line rest IH]; intros config Hno; simpl.
  - by exists config.
  - assert (∀ r v, r ∈ rest → ¬ binds r key v) as Hrest.
    { intros r v Hr. apply Hno. by right. }
    destruct (loop_body_cases config raw_line) as [(k & v & Hb & ->)|[_ ->]]; simpl.
    + destruct (IH (<[k := v]> config) Hrest) as (config' & -> & Hl).
      exists config'. split; [done|]. rewrite Hl. apply lookup_insert_ne.
      intros ->. apply (Hno raw_line v); [left | done].
    + by apply IH.
Qed.

End ForLines.

Lemma parse_config_file_lines json_load fs path text :
  fs !! path = Some (File text) → endswith (lit ".json") (lower path) = false →
  parse_config_file json_load fs path = for_lines ∅ (iter_lines text).
Proof.
  intros Hf Hj. unfold parse_config_file, exists_, open. rewrite Hf, Hj.
  by rewrite bool_decide_eq_true_2.
Qed.

Lemma parse_config_file_missing json_load fs path :
  fs !! path = None →
  parse_config_file json_load fs path
  = Raise (FileNotFoundError (lit "Config file " ++ path ++ lit " does not exist")).
Proof.
  intros Hf. unfold parse_config_file, exists_. rewrite Hf.
  rewrite bool_decide_eq_false_2; [done|]. by intros [? ?].
Qed.

(** C6.  Loading the configuration yields the empty mapping, and has no
    effect, when no path is given ([None], or the empty string, which the
    test [if config_path:] takes as no path).  When a path is given that
    is not on disk, [parse_config_file] raises [FileNotFoundError], and so
    do [load_config] and [load_credentials], which pass it on. *)
Theorem config_loading_no_path_or_missing_file
    (json_load : str → result (gmap str str)) (fs : gmap str node) (w : world) :
  load_config json_load fs None w = (Ok ∅, w)
  ∧ load_config json_load fs (Some []) w = (Ok ∅, w)
  ∧ ∀ path, fs !! path = None →
      let err := FileNotFoundError (lit "Config file " ++ path ++ lit " does not exist") in
      parse_config_file json_load fs path = Raise err
      ∧ (path ≠ [] →
         load_config json_load fs (Some path) w = (Raise err, w)
         ∧ ∀ environ, load_credentials json_load fs environ (Some path) w = (Raise err, w)).
Proof.
  split; [done | split; [done|]]. intros path Hf err.
  pose proof (parse_config_file_missing json_load fs path Hf) as Hp. fold err in Hp.
  split; [done|]. intros Hne.
  assert (load_config json_load fs (Some path) w = (Raise err, w)) as Hl.
  { unfold load_config, supplied. destruct path; [done|]. simpl.
    unfold bind, lift. by rewrite Hp. }
  split; [done|]. intros environ. unfold load_credentials, bind. by rewrite Hl.
Qed.

Lemma config_loading_no_path_or_missing_file_witness :
  parse_config_file no_json disk_example (lit "missing.env")
  = Raise (FileNotFoundError (lit "Config file missing.env does not exist"))
  ∧ load_config no_json disk_example (Some (lit "missing.env")) (World [] [] [] [] [])
    = (Raise (FileNotFoundError (lit "Config file missing.env does not exist")),
       World [] [] [] [] []).
Proof.
  destruct (config_loading_no_path_or_missing_file no_json disk_example (World [] [] [] [] []))
    as (_ & _ & H).
  destruct (H (lit "missing.env")) as [Hp Hl]; [reflexivity|].
  split; [exact Hp|]. apply Hl. discriminate.
Defined.

Lemma lines_from_concat (cur s : str) : concat (lines_from cur s) = reverse cur ++ s.
Proof.
  revert cur. induction s as [|c s IH]; intros cur; simpl.
  - destruct cur; simpl; [done|]. by rewrite !app_nil_r.
  - destruct (c =? LF); simpl; rewrite IH, reverse_cons.
    + simpl. by rewrite <- app_assoc.
    + by rewrite <- app_assoc.
Qed.

(** C7.  For a file that exists and whose name does not end in [.json],
    [parse_config_file] runs the loop body over the lines of the text, in
    order, starting from the empty mapping, and returns a mapping.  A line
    that is blank after trimming, or whose trimmed content starts with
    [#], leaves the mapping as it is.  Any other line that has an [=] is
    cut at its first [=]; the trimmed left part is bound to the trimmed
    right part in the mapping. *)
Theorem line_oriented_parsing (json_load : str → result (gmap str str))
    (fs : gmap str node) (path text : str) :
  fs !! path = Some (File text) →
  endswith (lit ".json") (lower path) = false →
  parse_config_file json_load fs path = for_lines ∅ (iter_lines text)
  ∧ concat (iter_lines text) = universal_newlines text
  ∧ (∃ config, parse_config_file json_load fs path = Ok config)
  ∧ (∀ config raw_line, ignored raw_line → loop_body config raw_line = Ok config)
  ∧ (∀ config raw_line a b,
       ¬ ignored raw_line → strip raw_line = a ++ EQ :: b → EQ ∉ a →
       loop_body config raw_line = Ok (<[strip a := strip b]> config))
  ∧ (∀ l1 raw_line l2,
       iter_lines text = l1 ++ raw_line :: l2 →
       ∃ before,
         for_lines ∅ l1 = Ok before
         ∧ (ignored raw_line →
            parse_config_file json_load fs path = for_lines before l2)
         ∧ (∀ key value, binds raw_line key value →
            parse_config_file json_load fs path
            = for_lines (<[key := value]> before) l2)).
Proof.
  intros Hf Hj. rewrite (parse_config_file_lines json_load fs path text Hf Hj).
  split; [done|]. split; [apply lines_from_concat|].
  split; [apply for_lines_total|].
  split; [apply loop_body_ignored|].
  split; [intros; by apply loop_body_split|].
  intros l1 raw_line l2 ->.
  destruct (for_lines_total ∅ l1) as [before Hb]. exists before.
  split; [done|]. rewrite for_lines_app, Hb. simpl. split.
  - intros Hi. by rewrite loop_body_ignored.
  - intros key value Hbind. by rewrite (loop_body_binds _ _ key value).
Qed.

Lemma line_oriented_parsing_witness :
  parse_config_file no_json disk_example (lit "creds.env")
  = Ok (<[X_BEARER_TOKEN := lit "new=er"]> (<[X_CONSUMER_KEY := lit "ck"]> ∅)).
Proof.
  destruct (line_oriented_parsing no_json disk_example (lit "creds.env")
              (lit "# credentials" ++ [LF] ++ lit "X_BEARER_TOKEN = old" ++ [CR; LF]
               ++ [LF] ++ lit "X_CONSUMER_KEY=ck" ++ [LF]
               ++ lit "  X_BEARER_TOKEN=new=er  " ++ [LF] ++ lit "no separator"))
    as (-> & _); [reflexivity | reflexivity |].
  vm_compute. reflexivity.
Defined.

(** C9.  In a line-oriented file, the value a key has in the resulting
    mapping is the one given by the last line that binds that key: lines
    before it, whether or not they bind the same key, do not matter. *)
Theorem last_line_wins (json_load : str → result (gmap str str))
    (fs : gmap str node) (path text : str) (l1 l2 : list str)
    (raw_line key value : str) :
  fs !! path = Some (File text) →
  endswith (lit ".json") (lower path) = false →
  iter_lines text = l1 ++ raw_line :: l2 →
  binds raw_line key value →
  (∀ later value', later ∈ l2 → ¬ binds later key value') →
  ∃ config, parse_config_file json_load fs path = Ok config
            ∧ config !! key = Some value.
Proof.
  intros Hf Hj Hl Hb Hlater.
  rewrite (parse_config_file_lines json_load fs path text Hf Hj), Hl.
  rewrite for_lines_app. destruct (for_lines_total ∅ l1) as [before ->]. simpl.
  rewrite (loop_body_binds _ _ key value Hb). simpl.
  destruct (for_lines_keeps (<[key := value]> before) l2 key Hlater) as (config & -> & Hk).
  exists config. split; [done|]. rewrite Hk. apply lookup_insert_eq.
Qed.

Lemma last_line_wins_witness :
  ∃ config, parse_config_file no_json disk_example (lit "creds.env") = Ok config
            ∧ config !! X_BEARER_TOKEN = Some (lit "new=er").
Proof.
  apply (last_line_wins no_json disk_example (lit "creds.env")
           (lit "# credentials" ++ [LF] ++ lit "X_BEARER_TOKEN = old" ++ [CR; LF]
            ++ [LF] ++ lit "X_CONSUMER_KEY=ck" ++ [LF]
            ++ lit "  X_BEARER_TOKEN=new=er  " ++ [LF] ++ lit "no separator")
           [lit "# credentials" ++ [LF]; lit "X_BEARER_TOKEN = old" ++ [LF]; [LF];
            lit "X_CONSUMER_KEY=ck" ++ [LF]]
           [lit "no separator"]
           (lit "  X_BEARER_TOKEN=new=er  " ++ [LF])).
  - reflexivity.
  - reflexivity.
  - reflexivity.
  - split.
    + intros Hi%ignored_test. vm_compute in Hi. discriminate Hi.
    + exists (lit "X_BEARER_TOKEN"), (lit "new=er").
      split; [reflexivity|]. split; [|split; reflexivity].
      apply (bool_decide_eq_true_1 _). vm_compute. reflexivity.
  - intros later value' Hin Hb. apply list_elem_of_singleton in Hin as ->.
    apply (loop_body_binds ∅) in Hb.
    apply (f_equal (λ r, match r with Ok m => m !! X_BEARER_TOKEN | Raise _ => None end)) in Hb.
    rewrite lookup_insert_eq in Hb. vm_compute in Hb. discriminate Hb.
Defined.

(** ** Submitting a text that is not valid *)

Lemma validate_text_raises text max_length e :
  validate_text text max_length = Raise e →
  e = ValueError (lit "Message is empty after trimming whitespace")
  ∨ e = ValueError (lit "Text exceeds maximum length of "
                      ++ str_of_int max_length ++ lit " characters").
Proof.
  unfold validate_text. destruct (falsy (strip text)); [intros [= <-]; by left|].
  destruct (len (strip text) >? max_length)%Z; [intros [= <-]; by right | done].
Qed.

(** C8.  When the text of the window fails [validate_text], [post_message]
    shows one error dialog, titled "Invalid text", with the message of the
    failure, and does nothing else: no request is sent, no worker thread
    is started, nothing is queued or logged, and the window is left as it
    was, so a submit button that was enabled still is and the status is
    unchanged. *)
Theorem post_message_invalid_text (self : TweetApp.t) (w : world) (e : exn) :
  validate_text (TweetApp.text_get_end self) (TweetApp.max_length self) = Raise e →
  let out := TweetApp.post_message (self, w) in
  out = (Ok tt,
         (self, World (logged w) (requests w)
                      (dialogs w ++ [(lit "Invalid text", exn_message e)])
                      (threads w) (after_queue w)))
  ∧ requests out.2.2 = requests w
  ∧ threads out.2.2 = threads w
  ∧ TweetApp.post_button out.2.1 = TweetApp.post_button self
  ∧ (TweetApp.post_button self = normal → TweetApp.post_button out.2.1 = normal).
Proof.
  intros He out.
  assert (out = (Ok tt,
         (self, World (logged w) (requests w)
                      (dialogs w ++ [(lit "Invalid text", exn_message e)])
                      (threads w) (after_queue w)))) as ->.
  { unfold out, TweetApp.post_message. simpl. rewrite He.
    by destruct (validate_text_raises _ _ _ He) as [-> | ->]. }
  done.
Qed.

Lemma post_message_invalid_text_witness :
  TweetApp.post_message (app_blank, World [] [] [] [] [])
  = (Ok tt,
     (app_blank,
      World [] [] [(lit "Invalid text", lit "Message is empty after trimming whitespace")]
            [] []))
  ∧ TweetApp.post_button app_blank = normal.
Proof.
  split; [|reflexivity].
  apply (post_message_invalid_text app_blank (World [] [] [] [] [])
           (ValueError (lit "Message is empty after trimming whitespace"))).
  reflexivity.
Defined.

(** ** The examples of the specification, evaluated *)

Example blank_text_is_rejected :
  validate_text (lit "   ") 280
  = Raise (ValueError (lit "Message is empty after trimming whitespace")).
Proof. reflexivity. Qed.

Example long_text_is_rejected :
  validate_text (replicate 281 0x61) 280
  = Raise (ValueError (lit "Text exceeds maximum length of 280 characters")).
Proof. vm_compute. reflexivity. Qed.

Example text_at_the_limit_is_accepted :
  validate_text ([LF] ++ replicate 280 0x61 ++ lit "  ") 280 = Ok (replicate 280 0x61).
Proof. vm_compute. reflexivity. Qed.

Example credentials_from_file_only :
  load_credentials no_json
    (<[lit "all.env" :=
         File (lit "X_BEARER_TOKEN=abc" ++ [LF] ++ lit "X_CONSUMER_KEY=ck" ++ [LF]
               ++ lit "X_CONSUMER_SECRET=cs" ++ [LF] ++ lit "X_ACCESS_TOKEN=at" ++ [LF]
               ++ lit "X_ACCESS_SECRET=as" ++ [LF])]> ∅)
    ∅ (Some (lit "all.env")) (World [] [] [] [] [])
  = (Ok (Credentials.Build (lit "abc") (lit "ck") (lit "cs") (lit "at") (lit "as")),
     World [(DEBUG, lit "Loaded credentials from all.env")] [] [] [] []).
Proof. vm_compute. reflexivity. Qed.

Example dry_run_hello (api : tweepy.create_tweet_t) :
  let app := TweetApp.init (TweetApp.client app_blank) 280 true in
  TweetApp.worker api app (lit "hello") true (World [] [] [] [] [])
  = (Ok tt,
     World [(INFO, lit "[dry-run] Would have posted: hello")] [] [] []
           [SetStatus (lit "Logged locally (dry-run)."); SetButton normal]).
Proof. reflexivity. Qed.

Example carriage_return_ends_a_line :
  iter_lines (lit "a=1" ++ [CR] ++ lit "b=2" ++ [CR; LF] ++ lit "c")
  = [lit "a=1" ++ [LF]; lit "b=2" ++ [LF]; lit "c"].
Proof. reflexivity. Qed.

(** * Further properties of the code *)

(** ** [validate_text], continued *)

Lemma strip_padding (l t r : str) :
  whitespace l → whitespace r → strip (l ++ t ++ r) = strip t.
Proof.
  intros Hl Hr. symmetry. apply trimmed_strip.
  destruct (strip_trimmed t) as (l' & r' & Ht & Hl' & Hr' & Hh & Hlast).
  exists (l ++ l'), (r' ++ r). split.
  - transitivity (l ++ (l' ++ strip t ++ r') ++ r); [by rewrite <- Ht|].
    by rewrite <- !app_assoc.
  - split; [by apply Forall_app|]. split; [by apply Forall_app|]. done.
Qed.

(** X1.  White space around a text does not change what [validate_text]
    answers: the same result, or the same error. *)
Theorem validate_text_ignores_padding (l text r : str) (max_length : Z) :
  whitespace l → whitespace r →
  validate_text (l ++ text ++ r) max_length = validate_text text max_length.
Proof.
  intros Hl Hr. unfold validate_text. by rewrite strip_padding.
Qed.

Lemma validate_text_ignores_padding_witness :
  validate_text ([0x20; 0x09] ++ lit "so  long" ++ [0xA0; 0x0A]) 8
  = validate_text (lit "so  long") 8
  ∧ validate_text (lit "so  long") 8 = Ok (lit "so  long").
Proof.
  split; [|reflexivity].
  apply validate_text_ignores_padding; repeat constructor.
Defined.

(** X2.  A text that [validate_text] returns has between one character
    and [max_length] characters and neither starts nor ends with white
    space; it stays valid under any larger maximum. *)
Theorem validate_text_result_bounds (text : str) (max_length : Z) (r : str) :
  validate_text text max_length = Ok r →
  (1 ≤ len r ≤ max_length)%Z
  ∧ (∀ c, head r = Some c → isspace c = false)
  ∧ (∀ c, last r = Some c → isspace c = false)
  ∧ (∀ larger, (max_length ≤ larger)%Z → validate_text text larger = Ok r).
Proof.
  intros (-> & Hne & Hlen)%validate_text_Ok.
  destruct (strip_trimmed text) as (l' & r' & _ & _ & _ & Hh & Hlast).
  split; [|split; [done|split; [done|]]].
  - split; [|done]. unfold len. destruct (strip text); [done|]. simpl. lia.
  - intros larger Hle. apply validate_text_Ok. repeat split; [done|lia].
Qed.

Lemma validate_text_result_bounds_witness :
  (1 ≤ len (lit "a b") ≤ 3)%Z ∧ validate_text (lit " a b ") 4 = Ok (lit "a b").
Proof.
  destruct (validate_text_result_bounds (lit " a b ") 3 (lit "a b")) as (Hb & _ & _ & Hm);
    [reflexivity|].
  split; [exact Hb|]. apply Hm. lia.
Defined.

(** X3.  The two errors of [validate_text] and when each is raised: a text
    that is blank after trimming gives the "empty" error whatever the
    maximum is; a text that is not blank and longer than the maximum gives
    the "exceeds" error, which names the maximum.  In particular no text
    is accepted under a maximum below one. *)
Theorem validate_text_errors (text : str) (max_length : Z) :
  (∀ e, validate_text text max_length = Raise e ↔
        (strip text = []
         ∧ e = ValueError (lit "Message is empty after trimming whitespace"))
        ∨ (strip text ≠ [] ∧ (max_length < len (strip text))%Z
           ∧ e = ValueError (lit "Text exceeds maximum length of "
                               ++ str_of_int max_length ++ lit " characters")))
  ∧ ((max_length < 1)%Z → ∃ e, validate_text text max_length = Raise e).
Proof.
  unfold validate_text. destruct (strip text) as [|c t] eqn:E; simpl.
  - split; [|by eexists]. intros e. split.
    + intros [= <-]. by left.
    + intros [[_ ->]|[? _]]; done.
  - destruct (Z.gtb_spec (len (c :: t)) max_length) as [Hgt|Hle].
    + split; [|by eexists]. intros e. split.
      * intros [= <-]. right. repeat split; [done|lia].
      * intros [[? _]|(_ & _ & ->)]; done.
    + split.
      * intros e. split; [done|]. intros [[? _]|(_ & ? & _)]; [done|lia].
      * intros Hm. unfold len in Hle. simpl in Hle. lia.
Qed.

(** ** Credentials, continued *)

Lemma credential_key_cases (P : str → Prop) :
  P X_BEARER_TOKEN → P X_CONSUMER_KEY → P X_CONSUMER_SECRET → P X_ACCESS_TOKEN →
  P X_ACCESS_SECRET → ∀ key, key ∈ CREDENTIAL_KEYS → P key.
Proof.
  intros H1 H2 H3 H4 H5 key Hk. unfold CREDENTIAL_KEYS in Hk.
  repeat (apply elem_of_cons in Hk as [->|Hk]; [done|]). by apply elem_of_nil in Hk.
Qed.

Lemma credential_key_elem :
  X_BEARER_TOKEN ∈ CREDENTIAL_KEYS ∧ X_CONSUMER_KEY ∈ CREDENTIAL_KEYS
  ∧ X_CONSUMER_SECRET ∈ CREDENTIAL_KEYS ∧ X_ACCESS_TOKEN ∈ CREDENTIAL_KEYS
  ∧ X_ACCESS_SECRET ∈ CREDENTIAL_KEYS.
Proof. unfold CREDENTIAL_KEYS. repeat split; set_solver. Qed.

Lemma missing_ext (m1 m2 : gmap str str) :
  (∀ key, key ∈ CREDENTIAL_KEYS → m1 !! key = m2 !! key) →
  Credentials.missing m1 = Credentials.missing m2.
Proof.
  intros H. apply filter_ext_in. intros key Hk%list_elem_of_In.
  unfold not_get. by rewrite H.
Qed.

Lemma from_mapping_complete (mapping : gmap str str) :
  Credentials.missing mapping = [] →
  Credentials.from_mapping mapping
  = Ok (Credentials.Build (get_default mapping X_BEARER_TOKEN)
          (get_default mapping X_CONSUMER_KEY) (get_default mapping X_CONSUMER_SECRET)
          (get_default mapping X_ACCESS_TOKEN) (get_default mapping X_ACCESS_SECRET)).
Proof.
  intros Hm. unfold Credentials.from_mapping. rewrite Hm. simpl.
  destruct credential_key_elem as (E1 & E2 & E3 & E4 & E5). unfold get_default.
  destruct (getitem_present mapping _ E1 Hm) as (v1 & -> & _ & ->).
  destruct (getitem_present mapping _ E2 Hm) as (v2 & -> & _ & ->).
  destruct (getitem_present mapping _ E3 Hm) as (v3 & -> & _ & ->).
  destruct (getitem_present mapping _ E4 Hm) as (v4 & -> & _ & ->).
  destruct (getitem_present mapping _ E5 Hm) as (v5 & -> & _ & ->).
  done.
Qed.

(** X4.  [Credentials.from_mapping] looks at the five keys only: two
    mappings that agree on them give the same record or the same error,
    whatever else they hold. *)
Theorem from_mapping_reads_five_keys_only (m1 m2 : gmap str str) :
  (∀ key, key ∈ CREDENTIAL_KEYS → m1 !! key = m2 !! key) →
  Credentials.from_mapping m1 = Credentials.from_mapping m2.
Proof.
  intros H. unfold Credentials.from_mapping. rewrite (missing_ext m1 m2 H).
  destruct credential_key_elem as (E1 & E2 & E3 & E4 & E5).
  unfold getitem. by rewrite !H.
Qed.

Lemma from_mapping_reads_five_keys_only_witness :
  Credentials.from_mapping (<[lit "X_EXTRA" := lit "more"]> mapping_full)
  = Credentials.from_mapping mapping_full.
Proof.
  apply from_mapping_reads_five_keys_only.
  apply credential_key_cases; reflexivity.
Defined.

Lemma filter_none {A} (f : A → bool) (l : list A) :
  (∀ x, x ∈ l → f x = false) → List.filter f l = [].
Proof.
  induction l as [|x l IH]; intros H; simpl; [done|].
  rewrite (H x) by left. apply IH. intros y Hy. apply H. by right.
Qed.

Lemma not_get_merged environ config key :
  key ∈ CREDENTIAL_KEYS →
  not_get (merged environ config) key = not_get environ key && not_get config key.
Proof.
  intros Hk. unfold not_get. rewrite merged_lookup by done. unfold or_, get_default.
  destruct (environ !! key) as [[|c v]|], (config !! key) as [[|c' v']|]; done.
Qed.

Lemma missing_merged environ config :
  Credentials.missing (merged environ config)
  = List.filter (λ key, not_get environ key && not_get config key) CREDENTIAL_KEYS.
Proof.
  apply filter_ext_in. intros key Hk%list_elem_of_In. by apply not_get_merged.
Qed.

(** X5.  Once the configuration is loaded, [load_credentials] fails
    exactly when some key is absent or empty in both the environment and
    the file, and its error names those keys, in the order of
    [CREDENTIAL_KEYS]; a key that either source provides is not named. *)
Theorem load_credentials_names_keys_missing_in_both
    (json_load : str → result (gmap str str)) (fs : gmap str node)
    (environ config : gmap str str) (config_path : option str) (w w' : world) :
  load_config json_load fs config_path w = (Ok config, w') →
  let missing :=
    List.filter (λ key, not_get environ key && not_get config key) CREDENTIAL_KEYS in
  (∀ key, key ∈ missing ↔
          key ∈ CREDENTIAL_KEYS ∧ absent environ key ∧ absent config key)
  ∧ (missing ≠ [] →
     load_credentials json_load fs environ config_path w
     = (Raise (ValueError (lit "Missing X credentials: " ++ join (lit ", ") missing)),
        w'))
  ∧ (missing = [] →
     ∃ c, load_credentials json_load fs environ config_path w = (Ok c, w')).
Proof.
  intros Hc missing.
  assert (load_credentials json_load fs environ config_path w
          = (Credentials.from_mapping (merged environ config), w')) as ->.
  { unfold load_credentials, bind. by rewrite Hc. }
  split; [|split].
  - intros key. unfold missing.
    rewrite list_elem_of_In, filter_In, <- list_elem_of_In, andb_true_iff.
    by rewrite !not_get_absent.
  - intros Hne. unfold Credentials.from_mapping. rewrite missing_merged. fold missing.
    by destruct missing.
  - intros Hnil. eexists. rewrite from_mapping_complete; [done|].
    by rewrite missing_merged.
Qed.

Lemma load_credentials_names_keys_missing_in_both_witness :
  load_credentials no_json ∅ environ_example None (World [] [] [] [] [])
  = (Raise (ValueError (lit "Missing X credentials: X_CONSUMER_KEY, X_CONSUMER_SECRET, X_ACCESS_TOKEN, X_ACCESS_SECRET")),
     World [] [] [] [] []).
Proof.
  destruct (load_credentials_names_keys_missing_in_both no_json ∅ environ_example ∅ None
              (World [] [] [] [] []) (World [] [] [] [] [])) as (_ & Hraise & _);
    [reflexivity|].
  rewrite Hraise; [reflexivity | discriminate].
Defined.

(** X6.  The merged mapping has the five keys and no other: whatever else
    the environment or the file defines is dropped, and each of the five
    is bound, to the empty string if to nothing else. *)
Theorem merged_has_exactly_the_five_keys (environ config : gmap str str) (key : str) :
  (is_Some (merged environ config !! key) ↔ key ∈ CREDENTIAL_KEYS)
  ∧ (key ∉ CREDENTIAL_KEYS → merged environ config !! key = None).
Proof.
  unfold merged. rewrite foldl_insert_lookup.
  destruct (decide (key ∈ CREDENTIAL_KEYS)) as [Hk|Hk].
  - split; [|done]. split; [done|]. intros _. by eexists.
  - rewrite lookup_empty. split; [|done]. split; [by intros [? ?] | done].
Qed.

(** X7.  When the environment gives all five keys a non-empty value, the
    credentials are the values of the environment, whatever the loaded
    file holds. *)
Theorem environment_alone_decides_when_complete
    (json_load : str → result (gmap str str)) (fs : gmap str node)
    (environ config : gmap str str) (config_path : option str) (w w' : world) :
  (∀ key, key ∈ CREDENTIAL_KEYS → ¬ absent environ key) →
  load_config json_load fs config_path w = (Ok config, w') →
  ∃ c, load_credentials json_load fs environ config_path w = (Ok c, w')
       ∧ environ !! X_BEARER_TOKEN = Some (Credentials.bearer_token c)
       ∧ environ !! X_CONSUMER_KEY = Some (Credentials.consumer_key c)
       ∧ environ !! X_CONSUMER_SECRET = Some (Credentials.consumer_secret c)
       ∧ environ !! X_ACCESS_TOKEN = Some (Credentials.access_token c)
       ∧ environ !! X_ACCESS_SECRET = Some (Credentials.access_secret c).
Proof.
  intros Hall Hc.
  assert (∀ key, key ∈ CREDENTIAL_KEYS →
            environ !! key = Some (get_default (merged environ config) key)
            ∧ not_get environ key = false) as Hv.
  { intros key Hk. specialize (Hall key Hk). unfold get_default, not_get.
    rewrite merged_lookup by done. unfold absent in Hall.
    destruct (environ !! key) as [[|c v]|]; simpl; naive_solver. }
  assert (Credentials.missing (merged environ config) = []) as Hm.
  { rewrite missing_merged. apply filter_none. intros key Hk.
    by rewrite (proj2 (Hv key Hk)). }
  eexists. unfold load_credentials, bind. rewrite Hc. unfold lift.
  rewrite (from_mapping_complete _ Hm). split; [done|]. simpl.
  destruct credential_key_elem as (E1 & E2 & E3 & E4 & E5).
  repeat split; by apply Hv.
Qed.

Lemma environment_alone_decides_when_complete_witness :
  ∃ c, load_credentials no_json disk_example mapping_full (Some (lit "creds.env"))
         (World [] [] [] [] [])
       = (Ok c, World [(DEBUG, lit "Loaded credentials from creds.env")] [] [] [] [])
       ∧ Credentials.bearer_token c = lit "abc".
Proof.
  destruct (environment_alone_decides_when_complete no_json disk_example mapping_full
              (<[X_BEARER_TOKEN := lit "new=er"]> (<[X_CONSUMER_KEY := lit "ck"]> ∅))
              (Some (lit "creds.env")) (World [] [] [] [] [])
              (World [(DEBUG, lit "Loaded credentials from creds.env")] [] [] [] []))
    as (c & Hc & H1 & _).
  - apply credential_key_cases; intros [H|H]; vm_compute in H; discriminate H.
  - vm_compute. reflexivity.
  - exists c. split; [exact Hc|]. vm_compute in H1. by injection H1.
Defined.

(** ** The configuration file, continued *)

Lemma startswith_spec (prefix s : str) :
  startswith prefix s = true ↔ ∃ rest, s = prefix ++ rest.
Proof.
  revert s. induction prefix as [|p prefix IH]; intros s; simpl.
  - split; [by exists s | done].
  - destruct s as [|c s]; [split; [done | by intros [? ?]]|].
    rewrite andb_true_iff, IH, N.eqb_eq. split.
    + intros [-> [rest ->]]. by exists rest.
    + intros [rest [= -> ->]]. split; [done | by exists rest].
Qed.

Lemma endswith_spec (suffix s : str) :
  endswith suffix s = true ↔ ∃ stem, s = stem ++ suffix.
Proof.
  unfold endswith. rewrite startswith_spec. split.
  - intros [rest H]. exists (reverse rest).
    apply (inj reverse). by rewrite reverse_app, reverse_involutive.
  - intros [stem ->]. exists (reverse stem). by rewrite reverse_app.
Qed.

Lemma json_name_spec (path : str) :
  endswith (lit ".json") (lower path) = true
  ↔ ∃ stem suffix, path = stem ++ suffix ∧ lower suffix = lit ".json".
Proof.
  rewrite endswith_spec. unfold lower. split.
  - intros [stem H].
    exists (take (length stem) path), (drop (length stem) path).
    split; [by rewrite take_drop|].
    rewrite fmap_drop, H. by rewrite drop_app_length.
  - intros (stem & suffix & -> & H). exists (lower_char <$> stem).
    by rewrite fmap_app, H.
Qed.

(** X8.  A file is read as JSON exactly by its name: when the name ends
    in [.json] in any mix of upper and lower case, the result of
    [parse_config_file] is what the JSON decoding yields for the text of
    the file, its errors included, and the line parser is not used. *)
Theorem json_suffix_in_any_case (json_load : str → result (gmap str str))
    (fs : gmap str node) (stem suffix text : str) :
  lower suffix = lit ".json" →
  fs !! (stem ++ suffix) = Some (File text) →
  parse_config_file json_load fs (stem ++ suffix) = json_load text.
Proof.
  intros Hs Hf. unfold parse_config_file, exists_, open. rewrite Hf.
  rewrite bool_decide_eq_true_2 by done. simpl.
  rewrite (proj2 (json_name_spec (stem ++ suffix))); [done|]. by exists stem, suffix.
Qed.

Lemma json_suffix_in_any_case_witness :
  parse_config_file no_json disk_json (lit "Keys" ++ lit ".JSON")
  = Raise (LibraryError (lit "not a JSON document")).
Proof.
  rewrite (json_suffix_in_any_case no_json disk_json (lit "Keys") (lit ".JSON") (lit "{}"));
    reflexivity.
Defined.

Section Origin.

Implicit Types (config : gmap str str) (lines : list str).

Lemma for_lines_origin config lines config' key value :
  for_lines config lines = Ok config' → config' !! key = Some value →
  config !! key = Some value ∨ ∃ raw_line, raw_line ∈ lines ∧ binds raw_line key value.
Proof.
  revert config. induction lines as [|raw_line rest IH]; intros config; simpl.
  - intros [= <-]. by left.
  - destruct (loop_body_cases config raw_line) as [(k & v & Hb & ->)|[_ ->]]; simpl;
      intros Hf Hl; destruct (IH _ Hf Hl) as [Hc|(r & Hr & Hbr)].
    + destruct (decide (k = key)) as [->|Hne].
      * rewrite lookup_insert_eq in Hc. injection Hc as ->.
        right. exists raw_line. split; [left | done].
      * rewrite lookup_insert_ne in Hc by done. by left.
    + right. exists r. split; [by right | done].
    + by left.
    + right. exists r. split; [by right | done].
Qed.

Lemma for_lines_mono config lines config' key :
  for_lines config lines = Ok config' → is_Some (config !! key) → is_Some (config' !! key).
Proof.
  revert config. induction lines as [|raw_line rest IH]; intros config; simpl.
  - by intros [= <-].
  - destruct (loop_body_cases config raw_line) as [(k & v & Hb & ->)|[_ ->]]; simpl;
      intros Hf Hs; apply (IH _ Hf); [|done].
    rewrite lookup_insert_is_Some. destruct (decide (k = key)); [by left | by right].
Qed.

Lemma for_lines_bound config lines config' raw_line key value :
  for_lines config lines = Ok config' → raw_line ∈ lines → binds raw_line key value →
  is_Some (config' !! key).
Proof.
  intros Hf (l1 & l2 & ->)%list_elem_of_split Hb.
  rewrite for_lines_app in Hf.
  destruct (for_lines_total config l1) as [before Hbefore]. rewrite Hbefore in Hf.
  simpl in Hf. rewrite (loop_body_binds _ _ key value Hb) in Hf. simpl in Hf.
  apply (for_lines_mono _ _ _ _ Hf). rewrite lookup_insert_eq. by eexists.
Qed.

Lemma elem_of_strip c (s : str) : c ∈ strip s → c ∈ s.
Proof.
  destruct (strip_trimmed s) as (l & r & Hs & _). intros Hc. rewrite Hs.
  apply elem_of_app. right. apply elem_of_app. by left.
Qed.

Lemma binds_shape raw_line key value :
  binds raw_line key value →
  strip key = key ∧ strip value = value ∧ (EQ ∉ key) ∧ head key ≠ Some HASH.
Proof.
  intros (Hi & a & b & Hs & Ha & -> & ->).
  split; [apply strip_idemp|]. split; [apply strip_idemp|].
  split; [intros H%elem_of_strip; done|].
  destruct (strip_trimmed raw_line) as (_ & _ & _ & _ & _ & Hh & _).
  rewrite Hs in Hh. destruct a as [|c a].
  - by vm_compute.
  - assert (isspace c = false) as Hc by by apply Hh.
    assert (c ≠ HASH) as Hne.
    { intros ->. apply Hi. right. exists (a ++ EQ :: b). by rewrite Hs. }
    unfold strip. rewrite (lstrip_head_fixed (c :: a)) by (simpl; congruence).
    destruct (rstrip_split (c :: a)) as (r & Hr & _).
    destruct (rstrip (c :: a)) as [|c' t]; [done|].
    simpl in Hr. injection Hr as <- _. simpl. congruence.
Qed.

End Origin.

(** X9.  The keys of the mapping parsed from a line-oriented file are
    exactly the keys that some line of the file binds: comments, blank
    lines and lines without [=] add nothing, and no binding is lost. *)
Theorem parsed_keys_are_the_bound_keys (json_load : str → result (gmap str str))
    (fs : gmap str node) (path text : str) :
  fs !! path = Some (File text) →
  endswith (lit ".json") (lower path) = false →
  ∃ config, parse_config_file json_load fs path = Ok config
    ∧ ∀ key, is_Some (config !! key)
             ↔ ∃ raw_line value, raw_line ∈ iter_lines text ∧ binds raw_line key value.
Proof.
  intros Hf Hj. rewrite (parse_config_file_lines json_load fs path text Hf Hj).
  destruct (for_lines_total ∅ (iter_lines text)) as [config Hc].
  exists config. split; [done|]. intros key. split.
  - intros [value Hv].
    destruct (for_lines_origin _ _ _ _ _ Hc Hv) as [He|(r & Hr & Hb)].
    + by rewrite lookup_empty in He.
    + by exists r, value.
  - intros (r & value & Hr & Hb). by apply (for_lines_bound _ _ _ _ _ _ Hc Hr Hb).
Qed.

Lemma parsed_keys_are_the_bound_keys_witness :
  ∃ config, parse_config_file no_json disk_example (lit "creds.env") = Ok config
    ∧ config !! lit "no separator" = None.
Proof.
  destruct (parsed_keys_are_the_bound_keys no_json disk_example (lit "creds.env")
    (lit "# credentials" ++ [LF] ++ lit "X_BEARER_TOKEN = old" ++ [CR; LF]
     ++ [LF] ++ lit "X_CONSUMER_KEY=ck" ++ [LF]
     ++ lit "  X_BEARER_TOKEN=new=er  " ++ [LF] ++ lit "no separator"))
    as (config & Hc & _); [reflexivity | reflexivity |].
  exists config. split; [exact Hc|].
  vm_compute in Hc. injection Hc as <-. reflexivity.
Defined.

(** X10.  Every entry of the mapping parsed from a line-oriented file is
    clean: the key and the value have no white space at either end, and
    the key has no [=] in it and does not start with [#]. *)
Theorem parsed_entries_are_trimmed (json_load : str → result (gmap str str))
    (fs : gmap str node) (path text : str) (config : gmap str str) (key value : str) :
  fs !! path = Some (File text) →
  endswith (lit ".json") (lower path) = false →
  parse_config_file json_load fs path = Ok config →
  config !! key = Some value →
  strip key = key ∧ strip value = value ∧ (EQ ∉ key) ∧ head key ≠ Some HASH.
Proof.
  intros Hf Hj. rewrite (parse_config_file_lines json_load fs path text Hf Hj).
  intros Hc Hv. destruct (for_lines_origin _ _ _ _ _ Hc Hv) as [He|(r & _ & Hb)].
  - by rewrite lookup_empty in He.
  - by apply (binds_shape r).
Qed.

Lemma parsed_entries_are_trimmed_witness :
  strip (lit "new=er") = lit "new=er" ∧ EQ ∉ X_BEARER_TOKEN.
Proof.
  destruct (parsed_entries_are_trimmed no_json disk_example (lit "creds.env")
    (lit "# credentials" ++ [LF] ++ lit "X_BEARER_TOKEN = old" ++ [CR; LF]
     ++ [LF] ++ lit "X_CONSUMER_KEY=ck" ++ [LF]
     ++ lit "  X_BEARER_TOKEN=new=er  " ++ [LF] ++ lit "no separator")
    (<[X_BEARER_TOKEN := lit "new=er"]> (<[X_CONSUMER_KEY := lit "ck"]> ∅))
    X_BEARER_TOKEN (lit "new=er")) as (_ & Hv & Hk & _);
    [reflexivity | reflexivity | vm_compute; reflexivity | reflexivity |].
  split; [exact Hv | exact Hk].
Defined.

(** ** The worker *)

Lemma worker_cases (api : tweepy.create_tweet_t) (self : TweetApp.t)
    (validated : str) (bound : bool) (w : world) :
  ∃ records sent callbacks,
    TweetApp.worker api self validated bound w
    = (Ok tt, World (logged w ++ records) (requests w ++ sent) (dialogs w) (threads w)
                    (after_queue w ++ callbacks ++ [SetButton normal]))
    ∧ sent = (if TweetApp.dry_run self then [] else [validated])
    ∧ existsb is_set_button callbacks = false.
Proof.
  unfold TweetApp.worker, try_finally, try_except, XClient.post.
  destruct (TweetApp.dry_run self) eqn:Hd.
  - exists [(INFO, lit "[dry-run] Would have posted: " ++ validated)], [],
      [SetStatus (lit "Logged locally (dry-run).")].
    simpl. rewrite app_nil_r, <- app_assoc. done.
  - unfold XClient.create_tweet, bind, lift, send_request, modify, logger, ret, root_after.
    simpl.
    destruct (api (XClient.client (TweetApp.client self)) (requests w) validated)
      as [response|e]; simpl.
    + eexists [_], [validated], [SetStatus _]. rewrite <- !app_assoc. done.
    + eexists [_], [validated], [ErrorBox _ _; SetStatus _]. rewrite <- !app_assoc. done.
Qed.

(** X11.  The worker never raises, whatever the API does, and the last
    thing it queues is the callback that enables the button again.  It
    touches the window through the queue only: it shows no dialog and
    starts no thread itself, and it sends at most one request, for the
    text it was started with. *)
Theorem worker_never_raises_and_reenables (api : tweepy.create_tweet_t)
    (self : TweetApp.t) (validated : str) (bound : bool) (w : world) :
  let out := TweetApp.worker api self validated bound w in
  out.1 = Ok tt
  ∧ (∃ earlier, after_queue out.2 = after_queue w ++ earlier ++ [SetButton normal]
                ∧ existsb is_set_button earlier = false)
  ∧ dialogs out.2 = dialogs w
  ∧ threads out.2 = threads w
  ∧ requests out.2 = requests w ++ (if TweetApp.dry_run self then [] else [validated]).
Proof.
  destruct (worker_cases api self validated bound w)
    as (records & sent & callbacks & Hw & -> & Hcb).
  cbv zeta. rewrite Hw. simpl. split; [done|]. split; [by exists callbacks | done].
Qed.

(** X12.  What the worker reports, by outcome.  In dry-run mode it sends
    nothing and queues the status "Logged locally (dry-run).".  Otherwise,
    when the request returns, it queues "Posted! Tweet ID: " followed by
    the identifier, or by "None" when the response carries none; when the
    request raises, it logs the error, queues the error dialog and then an
    empty status.  In each case the callback enabling the button is queued
    last. *)
Theorem worker_reports_outcome (api : tweepy.create_tweet_t)
    (self : TweetApp.t) (validated : str) (bound : bool) (w : world) :
  let out := TweetApp.worker api self validated bound w in
  let queued := drop (length (after_queue w)) (after_queue out.2) in
  let records := drop (length (logged w)) (logged out.2) in
  if TweetApp.dry_run self then
    queued = [SetStatus (lit "Logged locally (dry-run)."); SetButton normal]
    ∧ records = [(INFO, lit "[dry-run] Would have posted: " ++ validated)]
  else
    match api (XClient.client (TweetApp.client self)) (requests w) validated with
    | Ok response =>
      queued = [SetStatus (lit "Posted! Tweet ID: "
                             ++ format_opt (XClient.tweet_id_of response));
                SetButton normal]
      ∧ records = [(INFO, lit "Published tweet with id "
                            ++ format_opt (XClient.tweet_id_of response))]
    | Raise e =>
      queued = [ErrorBox (lit "Post failed") (if bound then Some e else None);
                SetStatus []; SetButton normal]
      ∧ records = [(ERROR, lit "Failed to post update: " ++ exn_message e)]
    end.
Proof.
  unfold TweetApp.worker, try_finally, try_except, XClient.post.
  destruct (TweetApp.dry_run self) eqn:Hd.
  - simpl. rewrite <- app_assoc, !drop_app_length. done.
  - unfold XClient.create_tweet, bind, lift, send_request, modify, logger, ret, root_after.
    simpl.
    destruct (api (XClient.client (TweetApp.client self)) (requests w) validated)
      as [response|e]; simpl; rewrite <- ?app_assoc, !drop_app_length; done.
Qed.

(** ** Submitting *)

Lemma length_strip (s : str) : (length (strip s) ≤ length s)%nat.
Proof.
  destruct (strip_trimmed s) as (l & r & Hs & _).
  rewrite Hs at 2. rewrite !length_app. lia.
Qed.

Lemma strip_tk_newline (s : str) : strip (s ++ [LF]) = strip s.
Proof.
  apply (strip_padding [] s [LF]); repeat constructor.
Qed.

Lemma post_message_cases (self : TweetApp.t) (w : world) :
  (∃ e, validate_text (TweetApp.text_get_end self) (TweetApp.max_length self) = Raise e
        ∧ TweetApp.post_message (self, w)
          = (Ok tt, (self, World (logged w) (requests w)
                                 (dialogs w ++ [(lit "Invalid text", exn_message e)])
                                 (threads w) (after_queue w))))
  ∨ (∃ validated,
       validate_text (TweetApp.text_get_end self) (TweetApp.max_length self) = Ok validated
       ∧ TweetApp.post_message (self, w)
         = (Ok tt,
            (TweetApp.Build (TweetApp.client self) (TweetApp.max_length self)
               (TweetApp.dry_run self) (TweetApp.text self) (TweetApp.count_var self)
               disabled
               (if negb (TweetApp.dry_run self) then lit "Posting..."
                else lit "Logging (dry-run)..."),
             World (logged w) (requests w) (dialogs w) (threads w ++ [validated])
                   (after_queue w)))).
Proof.
  unfold TweetApp.post_message. simpl.
  destruct (validate_text (TweetApp.text_get_end self) (TweetApp.max_length self))
    as [validated|e] eqn:E.
  - right. by exists validated.
  - left. exists e. split; [done|].
    by destruct (validate_text_raises _ _ _ E) as [-> | ->].
Qed.

Lemma post_message_accepts (self : TweetApp.t) (w : world) :
  strip (TweetApp.text self) ≠ [] →
  (len (strip (TweetApp.text self)) ≤ TweetApp.max_length self)%Z →
  TweetApp.post_message (self, w)
  = (Ok tt,
     (TweetApp.Build (TweetApp.client self) (TweetApp.max_length self)
        (TweetApp.dry_run self) (TweetApp.text self) (TweetApp.count_var self)
        disabled
        (if TweetApp.dry_run self then lit "Logging (dry-run)..." else lit "Posting..."),
      World (logged w) (requests w) (dialogs w)
            (threads w ++ [strip (TweetApp.text self)]) (after_queue w))).
Proof.
  intros Hne Hlen.
  assert (validate_text (TweetApp.text_get_end self) (TweetApp.max_length self)
          = Ok (strip (TweetApp.text self))) as Hv.
  { apply validate_text_Ok. unfold TweetApp.text_get_end. by rewrite strip_tk_newline. }
  destruct (post_message_cases self w) as [(e & He & _)|(v & Hv' & ->)]; [congruence|].
  rewrite Hv in Hv'. injection Hv' as <-. by destruct (TweetApp.dry_run self).
Qed.

(** X13.  When the typed text is not blank and its trimmed length is
    within the maximum, [post_message] disables the button, sets the
    status to "Posting..." (or "Logging (dry-run)..." in dry-run mode) and
    starts one worker for the trimmed text: the newline Tk appends to the
    content of the text box is not part of it.  It shows no dialog and
    sends nothing itself. *)
Theorem post_message_starts_one_worker (self : TweetApp.t) (w : world) :
  strip (TweetApp.text self) ≠ [] →
  (len (strip (TweetApp.text self)) ≤ TweetApp.max_length self)%Z →
  TweetApp.post_message (self, w)
  = (Ok tt,
     (TweetApp.Build (TweetApp.client self) (TweetApp.max_length self)
        (TweetApp.dry_run self) (TweetApp.text self) (TweetApp.count_var self)
        disabled
        (if TweetApp.dry_run self then lit "Logging (dry-run)..." else lit "Posting..."),
      World (logged w) (requests w) (dialogs w)
            (threads w ++ [strip (TweetApp.text self)]) (after_queue w))).
Proof. apply post_message_accepts. Qed.

Lemma post_message_starts_one_worker_witness :
  TweetApp.post_message (app_typed, World [] [] [] [] [])
  = (Ok tt,
     (TweetApp.Build (TweetApp.client app_typed) 280 false (lit "  hello world ")
        (TweetApp.count_var app_typed) disabled (lit "Posting..."),
      World [] [] [] [lit "hello world"] [])).
Proof.
  apply (post_message_starts_one_worker app_typed (World [] [] [] [] [])).
  - discriminate.
  - vm_compute. discriminate.
Defined.

(** X14.  [post_message] never raises and never sends a request, logs or
    queues anything, whatever the text is; it leaves the client, the
    maximum, the mode, the text and the counter of the window alone.
    Either it only adds a dialog, or it disables the button and starts
    one worker for a text that [validate_text] accepts. *)
Theorem post_message_never_raises_or_sends (self : TweetApp.t) (w : world) :
  let out := TweetApp.post_message (self, w) in
  out.1 = Ok tt
  ∧ requests out.2.2 = requests w ∧ logged out.2.2 = logged w
  ∧ after_queue out.2.2 = after_queue w
  ∧ TweetApp.client out.2.1 = TweetApp.client self
  ∧ TweetApp.max_length out.2.1 = TweetApp.max_length self
  ∧ TweetApp.dry_run out.2.1 = TweetApp.dry_run self
  ∧ TweetApp.text out.2.1 = TweetApp.text self
  ∧ TweetApp.count_var out.2.1 = TweetApp.count_var self
  ∧ ((out.2.1 = self ∧ threads out.2.2 = threads w
      ∧ ∃ message, dialogs out.2.2 = dialogs w ++ [(lit "Invalid text", message)])
     ∨ (TweetApp.post_button out.2.1 = disabled ∧ dialogs out.2.2 = dialogs w
        ∧ ∃ validated, threads out.2.2 = threads w ++ [validated]
                       ∧ validate_text validated (TweetApp.max_length self)
                         = Ok validated)).
Proof.
  cbv zeta.
  destruct (post_message_cases self w) as [(e & He & ->)|(v & Hv & ->)]; simpl.
  - repeat split; try done. left. repeat split; try done. by eexists.
  - repeat split; try done. right. repeat split; try done. exists v. split; [done|].
    apply validate_text_Ok in Hv as (-> & Hne & Hlen).
    apply validate_text_Ok. by rewrite strip_idemp.
Qed.

(** X15.  The counter shows the length of the text as typed, white space
    included, and [validate_text] measures the trimmed text, which is
    never longer.  So a text that the counter shows within the maximum is
    never refused as too long; it is refused only when blank. *)
Theorem counter_never_undercounts (self : TweetApp.t) (w : world) :
  let typed := len (TweetApp.text self) in
  TweetApp.update_count (self, w)
  = (Ok tt,
     (TweetApp.Build (TweetApp.client self) (TweetApp.max_length self)
        (TweetApp.dry_run self) (TweetApp.text self)
        (lit "Characters: " ++ str_of_int typed ++ lit "/"
           ++ str_of_int (TweetApp.max_length self))
        (TweetApp.post_button self) (TweetApp.status_var self), w))
  ∧ (len (strip (TweetApp.text_get_end self)) ≤ typed)%Z
  ∧ ((typed ≤ TweetApp.max_length self)%Z →
     ∀ e, validate_text (TweetApp.text_get_end self) (TweetApp.max_length self) = Raise e →
          e = ValueError (lit "Message is empty after trimming whitespace")).
Proof.
  cbv zeta.
  assert (len (strip (TweetApp.text_get_end self)) ≤ len (TweetApp.text self))%Z as Hle.
  { unfold TweetApp.text_get_end. rewrite strip_tk_newline. unfold len.
    pose proof (length_strip (TweetApp.text self)). lia. }
  split; [done|]. split; [done|]. intros Hmax e He. revert He. unfold validate_text.
  destruct (falsy (strip (TweetApp.text_get_end self))); [by intros [= <-]|].
  destruct (Z.gtb_spec (len (strip (TweetApp.text_get_end self)))
              (TweetApp.max_length self)); [lia | done].
Qed.

Lemma counter_never_undercounts_witness :
  (len (TweetApp.text app_blank) ≤ 280)%Z
  ∧ ∃ e, validate_text (TweetApp.text_get_end app_blank) 280 = Raise e
         ∧ e = ValueError (lit "Message is empty after trimming whitespace").
Proof.
  destruct (counter_never_undercounts app_blank (World [] [] [] [] [])) as (_ & _ & H).
  assert (len (TweetApp.text app_blank) ≤ 280)%Z as Hmax by (vm_compute; discriminate).
  split; [exact Hmax|]. eexists. split; [reflexivity|].
  apply (H Hmax). reflexivity.
Defined.

(** ** A session at the window *)

Section SessionInvariant.

Variable api : tweepy.create_tweet_t.
Variable client : XClient.t.
Variable max_length : Z.
Variable dry_run : bool.

Lemma enables_app (q1 q2 : list callback) :
  enables (q1 ++ q2) = (enables q1 + enables q2)%nat.
Proof. unfold enables. by rewrite List.filter_app, length_app. Qed.

Lemma enables_none (q : list callback) :
  existsb is_set_button q = false → enables q = 0%nat ∧ SetButton disabled ∉ q.
Proof.
  induction q as [|cb q IH]; simpl; [intros _; split; [done | apply not_elem_of_nil]|].
  intros [Hcb Hq]%orb_false_iff. destruct (IH Hq) as [He Hn].
  unfold enables in *. simpl. rewrite Hcb. split; [done|].
  apply not_elem_of_cons. split; [|done]. intros <-. done.
Qed.

Lemma session_inv_start records :
  session_inv client max_length dry_run (Session.start client max_length dry_run records).
Proof.
  unfold session_inv, Session.start, in_flight. simpl.
  repeat split; try done; [apply not_elem_of_nil | by destruct dry_run].
Qed.

Lemma accepted_of_validate text validated :
  validate_text text max_length = Ok validated → accepted max_length validated.
Proof.
  intros (-> & Hne & Hlen)%validate_text_Ok.
  apply validate_text_Ok. by rewrite strip_idemp.
Qed.

Lemma session_inv_step s e s' :
  session_inv client max_length dry_run s → Session.step api s e = Some s' →
  session_inv client max_length dry_run s'.
Proof.
  destruct s as [self w running].
  unfold session_inv, in_flight. simpl.
  intros (Hc & Hm & Hd & Hf & Hq & Ht & Hs) Hstep.
  destruct e as [new_text| | |n bound|]; simpl in Hstep.
  - injection Hstep as <-. simpl. done.
  - injection Hstep as <-. simpl. done.
  - destruct (TweetApp.post_button self) eqn:Hb; [|done].
    assert (running = []) as -> by (destruct running; [done | simpl in Hf; lia]).
    simpl in Hf.
    destruct (post_message_cases self w) as [(e & He & Hp)|(v & Hv & Hp)];
      rewrite Hp in Hstep; injection Hstep as <-; simpl.
    + rewrite drop_all, Hb. simpl. done.
    + rewrite drop_app_length. simpl. rewrite Hf. repeat split; try done.
      * apply Forall_app. split; [done|]. constructor; [|done].
        rewrite Hm in Hv. by apply (accepted_of_validate _ _ Hv).
      * destruct dry_run; [done|]. rewrite app_nil_r in Hs. by rewrite Hs.
  - destruct (running !! n) as [v|] eqn:Hn; [|done]. injection Hstep as <-. simpl.
    assert (running = [v] ∧ n = 0%nat ∧ TweetApp.post_button self = disabled
            ∧ enables (after_queue w) = 0%nat) as (-> & -> & Hb & He).
    { destruct running as [|v' [|v'' running]]; [done| |];
        destruct (TweetApp.post_button self); simpl in Hf; try lia.
      destruct n; [|done]. injection Hn as ->. repeat split; try done; lia. }
    destruct (worker_cases api self v bound w) as (records & sent & cbs & -> & Hsent & Hcbs).
    simpl. destruct (enables_none _ Hcbs) as [Hcb0 Hcbn].
    rewrite Hb, !enables_app, He, Hcb0. repeat split; try done.
    + rewrite !elem_of_app. intros [?|[?|Hl]]; [done | done |].
      apply list_elem_of_singleton in Hl. done.
    + subst sent. rewrite Hd. destruct dry_run; [by rewrite app_nil_r|].
      by rewrite app_nil_r.
  - unfold Session.take_callback in Hstep. simpl in Hstep.
    destruct (after_queue w) as [|cb rest] eqn:Hqueue; [done|].
    apply not_elem_of_cons in Hq as [Hcb Hrest].
    destruct cb as [status|title [exc|]|state]; injection Hstep as <-; simpl.
    + done.
    + done.
    + done.
    + destruct state; [|done].
      unfold enables in Hf. simpl in Hf. fold (enables rest) in Hf.
      destruct (TweetApp.post_button self); [lia|].
      assert (running = []) as -> by (destruct running; [done | simpl in Hf; lia]).
      simpl in *. repeat split; try done. lia.
Qed.

Lemma session_inv_run events : ∀ s s',
  session_inv client max_length dry_run s → Session.run api s events = Some s' →
  session_inv client max_length dry_run s'.
Proof.
  induction events as [|e events IH]; intros s s' Hi; simpl.
  - by intros [= <-].
  - destruct (Session.step api s e) as [s1|] eqn:Hstep; [|done].
    apply IH. by apply (session_inv_step s e).
Qed.

End SessionInvariant.

(** *** What a worker leaves behind, in full *)

Lemma worker_dry_run_eq api self validated bound w :
  TweetApp.dry_run self = true →
  TweetApp.worker api self validated bound w
  = (Ok tt,
     World (logged w ++ [(INFO, lit "[dry-run] Would have posted: " ++ validated)])
           (requests w) (dialogs w) (threads w)
           (after_queue w ++ [SetStatus (lit "Logged locally (dry-run).");
                              SetButton normal])).
Proof.
  intros Hd. unfold TweetApp.worker, try_finally, try_except, XClient.post.
  rewrite Hd. simpl. by rewrite <- app_assoc.
Qed.

Lemma worker_posted_eq api self validated bound w response :
  TweetApp.dry_run self = false →
  api (XClient.client (TweetApp.client self)) (requests w) validated = Ok response →
  TweetApp.worker api self validated bound w
  = (Ok tt,
     World (logged w ++ [(INFO, lit "Published tweet with id "
                                  ++ format_opt (XClient.tweet_id_of response))])
           (requests w ++ [validated]) (dialogs w) (threads w)
           (after_queue w
              ++ [SetStatus (lit "Posted! Tweet ID: "
                               ++ format_opt (XClient.tweet_id_of response));
                  SetButton normal])).
Proof.
  intros Hd Ha. unfold TweetApp.worker, try_finally, try_except, XClient.post.
  rewrite Hd.
  unfold XClient.create_tweet, bind, lift, send_request, modify, logger, ret, root_after.
  simpl. rewrite Ha. simpl. by rewrite <- app_assoc.
Qed.

Lemma worker_failed_eq api self validated bound w e :
  TweetApp.dry_run self = false →
  api (XClient.client (TweetApp.client self)) (requests w) validated = Raise e →
  TweetApp.worker api self validated bound w
  = (Ok tt,
     World (logged w ++ [(ERROR, lit "Failed to post update: " ++ exn_message e)])
           (requests w ++ [validated]) (dialogs w) (threads w)
           (after_queue w
              ++ [ErrorBox (lit "Post failed") (if bound then Some e else None);
                  SetStatus []; SetButton normal])).
Proof.
  intros Hd Ha. unfold TweetApp.worker, try_finally, try_except, XClient.post.
  rewrite Hd.
  unfold XClient.create_tweet, bind, lift, send_request, modify, logger, ret, root_after.
  simpl. rewrite Ha. simpl. by rewrite <- !app_assoc.
Qed.

Lemma run_app api s events1 events2 :
  Session.run api s (events1 ++ events2)
  = Session.run api s events1 ≫= λ s1, Session.run api s1 events2.
Proof.
  revert s. induction events1 as [|e events1 IH]; intros s; simpl; [done|].
  destruct (Session.step api s e); [apply IH | done].
Qed.

Lemma callback_step api s cb rest :
  after_queue (Session.outside s) = cb :: rest →
  ∃ s1, Session.step api s Callback = Some s1
        ∧ after_queue (Session.outside s1) = rest
        ∧ Session.running s1 = Session.running s.
Proof.
  intros Hq. unfold Session.step, Session.take_callback. rewrite Hq.
  eexists. split; [done|]. by destruct cb as [?|? [?|]|?].
Qed.

Lemma drain_queue api client max_length dry_run n : ∀ s,
  session_inv client max_length dry_run s →
  Session.running s = [] →
  length (after_queue (Session.outside s)) = n →
  ∃ s', Session.run api s (replicate n Callback) = Some s'
        ∧ session_inv client max_length dry_run s'
        ∧ Session.running s' = []
        ∧ after_queue (Session.outside s') = [].
Proof.
  induction n as [|n IH]; intros s Hi Hr Hn.
  - exists s. split; [done|]. split; [done|]. split; [done|]. by apply nil_length_inv.
  - destruct (after_queue (Session.outside s)) as [|cb rest] eqn:Hq; [done|].
    destruct (callback_step api s cb rest Hq) as (s1 & Hstep & Hq1 & Hr1).
    destruct (IH s1) as (s' & Hrun & Hi' & Hr' & Hq').
    + by apply (session_inv_step api client max_length dry_run s Callback).
    + congruence.
    + rewrite Hq1. simpl in Hn. lia.
    + exists s'. cbn [replicate Session.run]. rewrite Hstep. done.
Qed.

Lemma idle_when_drained client max_length dry_run s :
  session_inv client max_length dry_run s →
  Session.running s = [] → after_queue (Session.outside s) = [] →
  TweetApp.post_button (Session.app s) = normal.
Proof.
  intros (_ & _ & _ & Hf & _) Hr Hq. unfold in_flight in Hf. rewrite Hr, Hq in Hf.
  by destruct (TweetApp.post_button (Session.app s)).
Qed.

Lemma running_at_most_one client max_length dry_run s :
  session_inv client max_length dry_run s →
  Session.running s = [] ∨ ∃ v, Session.running s = [v].
Proof.
  intros (_ & _ & _ & Hf & _). unfold in_flight in Hf.
  destruct (Session.running s) as [|v [|v' r]]; [by left | right; by exists v |].
  destruct (TweetApp.post_button (Session.app s)); simpl in Hf; lia.
Qed.

(** X16.  In every state a session can reach, at most one worker is in
    flight (waiting to run, or run and not yet followed by the callback
    that enables the button), and one is in flight exactly while the
    button is disabled.  A press of the button is taken only when none
    is. *)
Theorem at_most_one_worker_in_flight (api : tweepy.create_tweet_t)
    (client : XClient.t) (max_length : Z) (dry_run : bool)
    (records : list (level * str)) (events : list event) (s : Session.t) :
  Session.run api (Session.start client max_length dry_run records) events = Some s →
  (in_flight s ≤ 1)%nat
  ∧ (in_flight s = 0%nat ↔ TweetApp.post_button (Session.app s) = normal)
  ∧ (is_Some (Session.step api s Click) → in_flight s = 0%nat).
Proof.
  intros Hrun.
  pose proof (session_inv_run api client max_length dry_run events _ _
                (session_inv_start client max_length dry_run records) Hrun)
    as (_ & _ & _ & Hf & _).
  unfold Session.step. destruct (TweetApp.post_button (Session.app s)); rewrite Hf.
  - repeat split; try done; lia.
  - repeat split; try done; try lia; by intros [? ?].
Qed.

Lemma at_most_one_worker_in_flight_witness :
  ∃ s, Session.run api_down (Session.start (TweetApp.client app_blank) 280 false [])
         [Edit (lit " hi "); KeyRelease; Click; WorkerRuns 0 true; Callback] = Some s
       ∧ (in_flight s ≤ 1)%nat.
Proof.
  eexists. split; [vm_compute; reflexivity|].
  eapply (at_most_one_worker_in_flight api_down (TweetApp.client app_blank) 280 false []
            [Edit (lit " hi "); KeyRelease; Click; WorkerRuns 0 true; Callback]).
  vm_compute. reflexivity.
Defined.

(** X17.  Every text a session sends to the API has passed
    [validate_text] under the maximum of the window: it is not blank, has
    no white space at its ends and is no longer than the maximum. *)
Theorem only_validated_text_is_sent (api : tweepy.create_tweet_t)
    (client : XClient.t) (max_length : Z) (dry_run : bool)
    (records : list (level * str)) (events : list event) (s : Session.t)
    (text : str) :
  Session.run api (Session.start client max_length dry_run records) events = Some s →
  text ∈ requests (Session.outside s) →
  validate_text text max_length = Ok text
  ∧ strip text = text ∧ text ≠ [] ∧ (len text ≤ max_length)%Z.
Proof.
  intros Hrun Hin.
  pose proof (session_inv_run api client max_length dry_run events _ _
                (session_inv_start client max_length dry_run records) Hrun)
    as (_ & _ & _ & _ & _ & Ht & Hs).
  assert (accepted max_length text) as Ha.
  { destruct dry_run.
    - rewrite Hs in Hin. by apply elem_of_nil in Hin.
    - rewrite Forall_forall in Ht. apply Ht. rewrite <- Hs. apply elem_of_app. by left. }
  split; [done|]. apply validate_text_Ok in Ha as (Hst & Hne & Hlen).
  rewrite <- Hst in *. done.
Qed.

Lemma only_validated_text_is_sent_witness :
  ∃ s, Session.run api_down (Session.start (TweetApp.client app_blank) 280 false [])
         [Edit (lit " hi "); Click; WorkerRuns 0 true] = Some s
       ∧ requests (Session.outside s) = [lit "hi"]
       ∧ validate_text (lit "hi") 280 = Ok (lit "hi").
Proof.
  eexists. split; [vm_compute; reflexivity|]. split; [reflexivity|].
  eapply (only_validated_text_is_sent api_down (TweetApp.client app_blank) 280 false []
            [Edit (lit " hi "); Click; WorkerRuns 0 true]); [vm_compute; reflexivity|].
  simpl. left.
Defined.

(** X18.  Outside dry-run mode the texts sent are, in order, the texts of
    the workers started, less the one that has not run yet: each accepted
    submit is sent once, none twice and none out of turn.  In dry-run
    mode a session sends nothing at all. *)
Theorem every_worker_sends_once_in_order (api : tweepy.create_tweet_t)
    (client : XClient.t) (max_length : Z) (dry_run : bool)
    (records : list (level * str)) (events : list event) (s : Session.t) :
  Session.run api (Session.start client max_length dry_run records) events = Some s →
  if dry_run then requests (Session.outside s) = []
  else requests (Session.outside s) ++ Session.running s = threads (Session.outside s).
Proof.
  intros Hrun.
  by pose proof (session_inv_run api client max_length dry_run events _ _
                   (session_inv_start client max_length dry_run records) Hrun)
    as (_ & _ & _ & _ & _ & _ & Hs).
Qed.

Lemma every_worker_sends_once_in_order_witness :
  ∃ s, Session.run api_down (Session.start (TweetApp.client app_blank) 280 true [])
         [Edit (lit "one"); Click; WorkerRuns 0 true; Callback; Callback;
          Edit (lit "two"); Click; WorkerRuns 0 false] = Some s
       ∧ threads (Session.outside s) = [lit "one"; lit "two"]
       ∧ requests (Session.outside s) = [].
Proof.
  eexists. split; [vm_compute; reflexivity|]. split; [reflexivity|].
  eapply (every_worker_sends_once_in_order api_down (TweetApp.client app_blank) 280 true []
            [Edit (lit "one"); Click; WorkerRuns 0 true; Callback; Callback;
             Edit (lit "two"); Click; WorkerRuns 0 false]).
  vm_compute. reflexivity.
Defined.

(** X19.  From every state a session can reach, letting the waiting
    worker run and the event loop empty its queue, with no action of the
    user, brings the window back to idle: the button is enabled, no worker
    is left and the queue is empty.  This holds whatever the API answers
    or raises. *)
Theorem window_returns_to_idle (api : tweepy.create_tweet_t)
    (client : XClient.t) (max_length : Z) (dry_run : bool)
    (records : list (level * str)) (events : list event) (s : Session.t)
    (bound : bool) :
  Session.run api (Session.start client max_length dry_run records) events = Some s →
  ∃ n s',
    Session.run api s (((λ _, WorkerRuns 0 bound) <$> Session.running s)
                       ++ replicate n Callback) = Some s'
    ∧ TweetApp.post_button (Session.app s') = normal
    ∧ Session.running s' = []
    ∧ after_queue (Session.outside s') = [].
Proof.
  intros Hrun.
  pose proof (session_inv_run api client max_length dry_run events _ _
                (session_inv_start client max_length dry_run records) Hrun) as Hi.
  destruct (running_at_most_one _ _ _ _ Hi) as [Hr|[v Hr]]; rewrite Hr; simpl.
  - destruct (drain_queue api client max_length dry_run _ s Hi Hr eq_refl)
      as (s' & Hd & Hi' & Hr' & Hq').
    exists (length (after_queue (Session.outside s))), s'.
    split; [done|]. split; [|done]. by apply (idle_when_drained client max_length dry_run).
  - rewrite Hr. simpl.
    set (s1 := Session.Build (Session.app s)
                 (TweetApp.worker api (Session.app s) v bound (Session.outside s)).2 []).
    assert (session_inv client max_length dry_run s1) as Hi1.
    { apply (session_inv_step api client max_length dry_run s (WorkerRuns 0 bound)); [done|].
      simpl. by rewrite Hr. }
    destruct (drain_queue api client max_length dry_run _ s1 Hi1 eq_refl eq_refl)
      as (s' & Hd & Hi' & Hr' & Hq').
    exists (length (after_queue (Session.outside s1))), s'.
    split; [done|]. split; [|done]. by apply (idle_when_drained client max_length dry_run).
Qed.

Lemma window_returns_to_idle_witness :
  ∃ n s',
    Session.run api_down
      (Session.Build
         (TweetApp.Build (TweetApp.client app_blank) 280 false (lit " hi ")
            (lit "Characters: 0/280") disabled (lit "Posting..."))
         (World [] [] [] [lit "hi"] []) [lit "hi"])
      ([WorkerRuns 0 false] ++ replicate n Callback) = Some s'
    ∧ TweetApp.post_button (Session.app s') = normal
    ∧ Session.running s' = []
    ∧ after_queue (Session.outside s') = [].
Proof.
  destruct (window_returns_to_idle api_down (TweetApp.client app_blank) 280 false []
              [Edit (lit " hi "); Click]
              (Session.Build
                 (TweetApp.Build (TweetApp.client app_blank) 280 false (lit " hi ")
                    (lit "Characters: 0/280") disabled (lit "Posting..."))
                 (World [] [] [] [lit "hi"] []) [lit "hi"])
              false) as (n & s' & H); [vm_compute; reflexivity|].
  exists n, s'. exact H.
Defined.

(** *** One submit, from the press of the button to the idle window *)

(** X20.  A submit that goes through.  From an idle window with a text
    that is valid, the press of the button, the run of the worker and the
    two callbacks it queues leave the window as it was, the text still in
    the box and the button enabled, with the status "Logged locally
    (dry-run)." in dry-run mode and "Posted! Tweet ID: ..." otherwise; the
    trimmed text has been sent once, or not at all in dry-run mode, and
    no dialog was shown. *)
Theorem submit_cycle_succeeds (api : tweepy.create_tweet_t) (self : TweetApp.t)
    (w : world) (bound : bool) (status : str) (sent : list str)
    (record : level * str) :
  let text := strip (TweetApp.text self) in
  TweetApp.post_button self = normal →
  after_queue w = [] →
  text ≠ [] → (len text ≤ TweetApp.max_length self)%Z →
  (TweetApp.dry_run self = true
   ∧ status = lit "Logged locally (dry-run)." ∧ sent = []
   ∧ record = (INFO, lit "[dry-run] Would have posted: " ++ text))
  ∨ (∃ response,
       TweetApp.dry_run self = false
       ∧ api (XClient.client (TweetApp.client self)) (requests w) text = Ok response
       ∧ status = lit "Posted! Tweet ID: " ++ format_opt (XClient.tweet_id_of response)
       ∧ sent = [text]
       ∧ record = (INFO, lit "Published tweet with id "
                           ++ format_opt (XClient.tweet_id_of response))) →
  Session.run api (Session.Build self w [])
    [Click; WorkerRuns 0 bound; Callback; Callback]
  = Some (Session.Build
            (TweetApp.Build (TweetApp.client self) (TweetApp.max_length self)
               (TweetApp.dry_run self) (TweetApp.text self) (TweetApp.count_var self)
               normal status)
            (World (logged w ++ [record]) (requests w ++ sent) (dialogs w)
                   (threads w ++ [text]) [])
            []).
Proof.
  intros text Hb Hq Hne Hlen Hcase.
  cbn [Session.run Session.step Session.app Session.outside Session.running].
  rewrite Hb, (post_message_accepts self w Hne Hlen).
  cbn [fst snd Session.app Session.outside Session.running threads].
  rewrite drop_app_length.
  cbn [app lookup list_lookup Session.app Session.outside Session.running delete list_delete].
  destruct Hcase as [(Hd & -> & -> & ->)|(response & Hd & Ha & -> & -> & ->)].
  - rewrite worker_dry_run_eq by done. rewrite Hd. simpl. by rewrite Hq, app_nil_r.
  - rewrite (worker_posted_eq _ _ _ _ _ response) by done. rewrite Hd. simpl.
    by rewrite Hq.
Qed.

Lemma submit_cycle_succeeds_witness :
  Session.run (λ _ _ _, Ok (Some {| tweepy.data := Some (<[lit "id" := lit "42"]> ∅) |}))
    (Session.Build app_typed (World [] [] [] [] []) [])
    [Click; WorkerRuns 0 true; Callback; Callback]
  = Some (Session.Build
            (TweetApp.Build (TweetApp.client app_typed) 280 false (lit "  hello world ")
               (TweetApp.count_var app_typed) normal (lit "Posted! Tweet ID: 42"))
            (World [(INFO, lit "Published tweet with id 42")] [lit "hello world"] []
                   [lit "hello world"] [])
            []).
Proof.
  apply (submit_cycle_succeeds _ app_typed (World [] [] [] [] []) true).
  - reflexivity.
  - reflexivity.
  - discriminate.
  - vm_compute. discriminate.
  - right. eexists. repeat split; reflexivity.
Defined.

(** X21.  A submit that fails.  When the request raises, the same steps,
    with the three callbacks the worker queues, end in an idle window
    too: the button is enabled again, the status is empty, the text is
    still in the box and the error is logged.  The "Post failed" dialog
    with the message of the error is shown when the callback finds [exc]
    still bound; nothing is sent again. *)
Theorem submit_cycle_fails (api : tweepy.create_tweet_t) (self : TweetApp.t)
    (w : world) (bound : bool) (e : exn) :
  let text := strip (TweetApp.text self) in
  TweetApp.post_button self = normal →
  after_queue w = [] →
  text ≠ [] → (len text ≤ TweetApp.max_length self)%Z →
  TweetApp.dry_run self = false →
  api (XClient.client (TweetApp.client self)) (requests w) text = Raise e →
  Session.run api (Session.Build self w [])
    [Click; WorkerRuns 0 bound; Callback; Callback; Callback]
  = Some (Session.Build
            (TweetApp.Build (TweetApp.client self) (TweetApp.max_length self)
               (TweetApp.dry_run self) (TweetApp.text self) (TweetApp.count_var self)
               normal [])
            (World (logged w ++ [(ERROR, lit "Failed to post update: " ++ exn_message e)])
                   (requests w ++ [text])
                   (dialogs w ++ (if bound then [(lit "Post failed", exn_message e)]
                                  else []))
                   (threads w ++ [text]) [])
            []).
Proof.
  intros text Hb Hq Hne Hlen Hd Ha.
  cbn [Session.run Session.step Session.app Session.outside Session.running].
  rewrite Hb, (post_message_accepts self w Hne Hlen).
  cbn [fst snd Session.app Session.outside Session.running threads].
  rewrite drop_app_length.
  cbn [app lookup list_lookup Session.app Session.outside Session.running delete list_delete].
  rewrite (worker_failed_eq _ _ _ _ _ e) by done. rewrite Hd. simpl. rewrite Hq.
  destruct bound; simpl; by rewrite ?app_nil_r.
Qed.

Lemma submit_cycle_fails_witness :
  Session.run api_down (Session.Build app_typed (World [] [] [] [] []) [])
    [Click; WorkerRuns 0 true; Callback; Callback; Callback]
  = Some (Session.Build
            (TweetApp.Build (TweetApp.client app_typed) 280 false (lit "  hello world ")
               (TweetApp.count_var app_typed) normal [])
            (World [(ERROR, lit "Failed to post update: 503 Service Unavailable")]
                   [lit "hello world"]
                   [(lit "Post failed", lit "503 Service Unavailable")]
                   [lit "hello world"] [])
            []).
Proof.
  apply (submit_cycle_fails api_down app_typed (World [] [] [] [] []) true
           (LibraryError (lit "503 Service Unavailable"))).
  - reflexivity.
  - reflexivity.
  - discriminate.
  - vm_compute. discriminate.
  - reflexivity.
  - reflexivity.
Defined.

(** ** The entry point *)

Lemma from_mapping_Ok_nonempty (mapping : gmap str str) (c : Credentials.t) :
  Credentials.from_mapping mapping = Ok c →
  Credentials.bearer_token c ≠ [] ∧ Credentials.consumer_key c ≠ []
  ∧ Credentials.consumer_secret c ≠ [] ∧ Credentials.access_token c ≠ []
  ∧ Credentials.access_secret c ≠ [].
Proof.
  intros Hc.
  assert (Credentials.missing mapping = []) as Hm.
  { unfold Credentials.from_mapping in Hc. by destruct (Credentials.missing mapping). }
  rewrite (from_mapping_complete _ Hm) in Hc. injection Hc as <-. simpl.
  destruct credential_key_elem as (E1 & E2 & E3 & E4 & E5). unfold get_default.
  destruct (getitem_present mapping _ E1 Hm) as (v1 & -> & ? & _).
  destruct (getitem_present mapping _ E2 Hm) as (v2 & -> & ? & _).
  destruct (getitem_present mapping _ E3 Hm) as (v3 & -> & ? & _).
  destruct (getitem_present mapping _ E4 Hm) as (v4 & -> & ? & _).
  destruct (getitem_present mapping _ E5 Hm) as (v5 & -> & ? & _).
  done.
Qed.

Lemma load_credentials_world json_load fs environ config_path w :
  let out := load_credentials json_load fs environ config_path w in
  requests out.2 = requests w ∧ dialogs out.2 = dialogs w
  ∧ threads out.2 = threads w ∧ after_queue out.2 = after_queue w
  ∧ (∀ c, out.1 = Ok c →
       ∃ config, Credentials.from_mapping (merged environ config) = Ok c).
Proof.
  unfold load_credentials, load_config, bind, lift, ret, logger, modify.
  destruct (supplied config_path) as [path|]; simpl.
  - destruct (parse_config_file json_load fs path) as [config|e]; simpl; [|done].
    repeat split; try done. intros c Hc. by exists config.
  - repeat split; try done. intros c Hc. by exists ∅.
Qed.

(** X22.  [run] either exits with status 1 or starts the window, and it
    starts the window only with five credentials that are not empty.  On
    exit the last record logged is the error "Credential loading failed: "
    with the message of what [load_credentials] raised.  The window it
    starts is idle: empty text, empty status, enabled button, the counter
    at zero, the maximum and the mode of the arguments, and a session that
    waits on rate limits.  In neither case has anything been sent or
    shown. *)
Theorem run_exits_or_starts_idle (json_load : str → result (gmap str str))
    (fs : gmap str node) (environ : gmap str str) (args : argparse.Namespace)
    (w : world) :
  let out := run json_load fs environ args w in
  requests out.2 = requests w ∧ dialogs out.2 = dialogs w
  ∧ threads out.2 = threads w ∧ after_queue out.2 = after_queue w
  ∧ match out.1.2 with
    | SystemExit code =>
      code = 1%Z
      ∧ ∃ exc, (load_credentials json_load fs environ (argparse.config args) w).1
               = Raise exc
               ∧ last (logged out.2)
                 = Some (ERROR, lit "Credential loading failed: " ++ exn_message exc)
    | mainloop app =>
      let session := XClient.client (TweetApp.client app) in
      tweepy.bearer_token session ≠ [] ∧ tweepy.consumer_key session ≠ []
      ∧ tweepy.consumer_secret session ≠ [] ∧ tweepy.access_token session ≠ []
      ∧ tweepy.access_token_secret session ≠ []
      ∧ tweepy.wait_on_rate_limit session = true
      ∧ TweetApp.text app = [] ∧ TweetApp.status_var app = []
      ∧ TweetApp.post_button app = normal
      ∧ TweetApp.count_var app
        = lit "Characters: 0/" ++ str_of_int (argparse.max_length args)
      ∧ TweetApp.max_length app = argparse.max_length args
      ∧ TweetApp.dry_run app = argparse.dry_run args
    end.
Proof.
  cbv zeta. unfold run.
  pose proof (load_credentials_world json_load fs environ (argparse.config args) w)
    as (Hr & Hd & Ht & Hq & Hc).
  destruct (load_credentials json_load fs environ (argparse.config args) w)
    as [[c|exc] w1]; simpl in *.
  - destruct (Hc c eq_refl) as [config Hfm].
    apply from_mapping_Ok_nonempty in Hfm as (? & ? & ? & ? & ?). done.
  - repeat split; try done. exists exc. split; [done|]. apply last_snoc.
Qed.

(** X23.  A configuration path that names no file is fatal even when the
    environment holds all five credentials: [run] exits with status 1,
    logs that the file does not exist, and builds no window. *)
Theorem run_missing_file_is_fatal (json_load : str → result (gmap str str))
    (fs : gmap str node) (environ : gmap str str) (args : argparse.Namespace)
    (w : world) (path : str) :
  argparse.config args = Some path → path ≠ [] → fs !! path = None →
  run json_load fs environ args w
  = ((configure_logging (argparse.verbose args), SystemExit 1),
     World (logged w ++ [(ERROR, lit "Credential loading failed: Config file "
                                   ++ path ++ lit " does not exist")])
           (requests w) (dialogs w) (threads w) (after_queue w)).
Proof.
  intros Hc Hne Hf. unfold run, load_credentials, load_config, bind, lift. rewrite Hc.
  unfold supplied. destruct path as [|ch path]; [done|]. simpl.
  rewrite (parse_config_file_missing json_load fs _ Hf). simpl.
  destruct w. reflexivity.
Qed.

Lemma run_missing_file_is_fatal_witness :
  run no_json disk_example mapping_full
    {| argparse.config := Some (lit "missing.env"); argparse.dry_run := false;
       argparse.max_length := 280; argparse.verbose := false |}
    (World [] [] [] [] [])
  = ((INFO, SystemExit 1),
     World [(ERROR, lit "Credential loading failed: Config file missing.env does not exist")]
           [] [] [] []).
Proof.
  rewrite (run_missing_file_is_fatal no_json disk_example mapping_full _
             (World [] [] [] [] []) (lit "missing.env"));
    [reflexivity | reflexivity | discriminate | reflexivity].
Defined.

Lemma load_config_Ok_world json_load fs config_path w config w' :
  load_config json_load fs config_path w = (Ok config, w') →
  w' = match supplied config_path with
       | Some path => (logger DEBUG (lit "Loaded credentials from " ++ path) w).2
       | None => w
       end.
Proof.
  unfold load_config, bind, lift, ret.
  destruct (supplied config_path) as [path|]; [|by intros [= _ <-]].
  destruct (parse_config_file json_load fs path); [by intros [= _ <-] | done].
Qed.

(** X24.  What [run] logs and how it ends depend on which keys are
    missing, not on the values of the credentials: two runs with the same
    arguments whose configuration loads, and in which the same keys are
    absent or empty in both the environment and the file, leave the same
    log and the same world behind, whatever the secrets are. *)
Theorem credential_values_are_not_logged
    (json_load1 json_load2 : str → result (gmap str str)) (fs1 fs2 : gmap str node)
    (environ1 environ2 config1 config2 : gmap str str) (args : argparse.Namespace)
    (w w1 w2 : world) :
  load_config json_load1 fs1 (argparse.config args) w = (Ok config1, w1) →
  load_config json_load2 fs2 (argparse.config args) w = (Ok config2, w2) →
  (∀ key, key ∈ CREDENTIAL_KEYS →
     (absent environ1 key ∧ absent config1 key)
     ↔ (absent environ2 key ∧ absent config2 key)) →
  (run json_load1 fs1 environ1 args w).2 = (run json_load2 fs2 environ2 args w).2
  ∧ ((∃ app, (run json_load1 fs1 environ1 args w).1.2 = mainloop app)
     ↔ (∃ app, (run json_load2 fs2 environ2 args w).1.2 = mainloop app)).
Proof.
  intros H1 H2 Hsame.
  assert (w1 = w2) as <-.
  { rewrite (load_config_Ok_world _ _ _ _ _ _ H1).
    by rewrite (load_config_Ok_world _ _ _ _ _ _ H2). }
  assert (Credentials.missing (merged environ1 config1)
          = Credentials.missing (merged environ2 config2)) as Hm.
  { rewrite !missing_merged. apply filter_ext_in. intros key Hk%list_elem_of_In.
    apply eq_true_iff_eq. rewrite !andb_true_iff, !not_get_absent. by apply Hsame. }
  unfold run, load_credentials, bind, lift. rewrite H1, H2.
  destruct (Credentials.missing (merged environ2 config2)) as [|k ks] eqn:E.
  - rewrite (from_mapping_complete _ Hm), (from_mapping_complete _ E). simpl.
    split; [done|]. split; intros _; by eexists.
  - unfold Credentials.from_mapping. rewrite Hm, E. simpl.
    split; [done|]. split; intros [app Ha]; done.
Qed.

Lemma credential_values_are_not_logged_witness :
  (run no_json ∅ environ_example
     {| argparse.config := None; argparse.dry_run := false;
        argparse.max_length := 280; argparse.verbose := true |}
     (World [] [] [] [] [])).2
  = (run no_json disk_example (<[X_BEARER_TOKEN := lit "another secret"]> ∅)
       {| argparse.config := None; argparse.dry_run := false;
          argparse.max_length := 280; argparse.verbose := true |}
       (World [] [] [] [] [])).2.
Proof.
  apply (credential_values_are_not_logged no_json no_json ∅ disk_example
           environ_example (<[X_BEARER_TOKEN := lit "another secret"]> ∅) ∅ ∅
           {| argparse.config := None; argparse.dry_run := false;
              argparse.max_length := 280; argparse.verbose := true |}
           (World [] [] [] [] []) (World [] [] [] [] []) (World [] [] [] [] [])).
  - reflexivity.
  - reflexivity.
  - apply credential_key_cases; unfold absent; vm_compute;
      (split; intros [[H|H] ?]; try discriminate H; split; auto).
Defined.

(** X25.  Under a maximum below one no text is valid, so a window
    started with such a maximum never starts a worker and never sends
    anything, whatever the user types. *)
Theorem nothing_is_posted_under_a_maximum_below_one (api : tweepy.create_tweet_t)
    (client : XClient.t) (max_length : Z) (dry_run : bool)
    (records : list (level * str)) (events : list event) (s : Session.t) :
  (max_length < 1)%Z →
  Session.run api (Session.start client max_length dry_run records) events = Some s →
  threads (Session.outside s) = [] ∧ requests (Session.outside s) = [].
Proof.
  intros Hmax Hrun.
  pose proof (session_inv_run api client max_length dry_run events _ _
                (session_inv_start client max_length dry_run records) Hrun)
    as (_ & _ & _ & _ & _ & Ht & Hs).
  assert (threads (Session.outside s) = []) as Hnil.
  { destruct (threads (Session.outside s)) as [|text ts]; [done|].
    apply Forall_cons in Ht as [Ha _].
    apply validate_text_Ok in Ha as (_ & Hne & Hlen). exfalso.
    unfold len in Hlen. destruct (strip text); [done|]. simpl in Hlen. lia. }
  split; [done|]. destruct dry_run; [done|].
  rewrite Hnil in Hs. by apply app_eq_nil in Hs as [? _].
Qed.

Lemma nothing_is_posted_under_a_maximum_below_one_witness :
  ∃ s, Session.run api_down (Session.start (TweetApp.client app_blank) 0 false [])
         [Edit (lit "hi"); Click] = Some s
       ∧ threads (Session.outside s) = []
       ∧ dialogs (Session.outside s)
         = [(lit "Invalid text", lit "Text exceeds maximum length of 0 characters")].
Proof.
  eexists. split; [vm_compute; reflexivity|]. split; [|reflexivity].
  eapply (nothing_is_posted_under_a_maximum_below_one api_down
            (TweetApp.client app_blank) 0 false [] [Edit (lit "hi"); Click]);
    [lia | vm_compute; reflexivity].
Defined.
